(** * redis-mq: the consumer delivery loop, its options and the XAck wrapper

    A shallow embedding of the Go packages [redis_mq] (consumer.go,
    option.go, deadLetter.go) and [redis] (the stream client), followed by
    the properties of the consumer delivery loop.

    Conventions of the embedding:
    - Go's [int] and [time.Duration] are 64-bit signed integers: they are
      values of [Z], and the one arithmetic operation of the code, the
      [++] on a failure counter, wraps around ([GoInt.incr]).
    - A Go [error] result is an [option error]: [None] is [nil].
    - Everything outside the process (the Redis server behind the
      connection pool, the user's callback and dead-letter mailbox, the
      logger, the order in which [range] walks a map) reads and writes an
      abstract world [W]; the functions below pass it along explicitly.
    - The callback and the mailbox receive a pointer to the message: they
      may write it, and the loop reads the message again after the call.
      They are functions that return, with their error, the message as
      they leave it.
    - A nil dereference is a panic: the third outcome of a computation. *)

From Stdlib Require Import ZArith Lia.
From stdpp Require Import base decidable countable strings list gmap fin_maps.

Local Open Scope Z_scope.

(** ** Go's machine integers *)

Module GoInt.

Definition min_int : Z := - 2 ^ 63.
Definition max_int : Z := 2 ^ 63 - 1.

(** The value of a 64-bit two's complement register holding [z]. *)
Definition wrap (z : Z) : Z := (z + 2 ^ 63) mod 2 ^ 64 - 2 ^ 63.

(** [x++] on an [int]. *)
Definition incr (z : Z) : Z := wrap (z + 1).

End GoInt.

(** ** Package time *)

Module time.

(** [time.Duration] counts nanoseconds. *)
Definition Duration := Z.
Definition Millisecond : Duration := 1000000.
Definition Second : Duration := 1000000000.

(** [d.Milliseconds()]: integer division, truncated toward zero. *)
Definition Milliseconds (d : Duration) : Z := Z.quot d Millisecond.

End time.

(** ** Errors *)

Inductive error :=
  | ErrNoMsg                                   (* redis.ErrNoMsg, a sentinel *)
  | errors_New (text : string)                 (* errors.New(text) *)
  | fmt_Errorf (format : string) (arg : Z).    (* fmt.Errorf(format, arg) *)

Global Instance error_eq_dec : EqDecision error.
Proof. solve_decision. Defined.

(** [errors.Is(err, target)] for errors that wrap nothing. *)
Definition errors_Is (err target : error) : bool := bool_decide (err = target).

(** ** Package redis: messages *)

Record MsgEntity := mkMsg { MsgID : string; Key : string; Val : string }.

Global Instance MsgEntity_eq_dec : EqDecision MsgEntity.
Proof. solve_decision. Defined.

Global Instance MsgEntity_countable : Countable MsgEntity.
Proof.
  refine (inj_countable' (λ m, (MsgID m, Key m, Val m))
                         (λ t, mkMsg t.1.1 t.1.2 t.2) _).
  by intros [].
Defined.

(** ** Observable events of a consumer

    What the loop does to the outside, in the order it does it: a call of
    the user callback on [msg], the message as the callback left it and
    whether it returned nil; a call of the mailbox's [Deliver] on the
    entry [msg], [failureCnt] of the table, the message as the mailbox
    left it and whether it returned nil; a call of [XAck] for a message
    id and whether it returned nil. *)

Inductive Event :=
  | ECallback (msg after : MsgEntity) (ok : bool)
  | EDeliver (msg : MsgEntity) (failureCnt : Z) (after : MsgEntity)
      (ok : bool)
  | EAck (msgID : string) (ok : bool).

Global Instance Event_eq_dec : EqDecision Event.
Proof. solve_decision. Defined.

(** An argument of a log line. *)
Inductive log_arg :=
  | arg_string (s : string)
  | arg_error (e : error).

(** ** Package context

    A [context.Context] made by [context.WithCancel]: [ctx_err] is what
    [Err()] returns, nil until the context is cancelled; the channel
    returned by [Done()] is closed from then on.  The cancel function
    returned with the context cancels it the first time it is called and
    does nothing afterwards (the documented behaviour of the package). *)

Record cancelCtx := mkCtx { ctx_err : option error }.

Definition Canceled : error := errors_New "context canceled".

Definition context_WithCancel : cancelCtx := {| ctx_err := None |}.

Definition cancel (c : cancelCtx) : cancelCtx :=
  match ctx_err c with
  | Some _ => c
  | None => {| ctx_err := Some Canceled |}
  end.

(** Is the channel [c.Done()] closed? *)
Definition done_closed (c : cancelCtx) : bool :=
  match ctx_err c with Some _ => true | None => false end.

(** ** The world outside the process

    The operations the code calls but does not define, each a function of
    the world:
    - [pool_GetContext p]: [c.pool.GetContext(ctx)], the error it returns
      (nil when a connection was obtained);
    - [conn_Do_XACK topic group id]:
      [redis.Int64(conn.Do("XACK", topic, groupID, msgID))], reply and
      error; [conn_Close] is the deferred [conn.Close()];
    - [xReadGroup_reply p group consumer topic timeout pending]: what
      [xReadGroup] does once its arguments are checked (take a
      connection, send XREADGROUP, parse the reply), messages and error;
      the parsing is not looked into: nothing below depends on it;
    - [log_ErrorContextFormat]: the logger of package log;
    - [range_order]: the order in which a [range] statement walks the
      failure-count map, some enumeration of its entries, each once. *)

Class Outside (W : Type) := {
  pool_GetContext : nat → W → option error * W;
  conn_Do_XACK : string → string → string → W → Z * option error * W;
  conn_Close : W → W;
  xReadGroup_reply :
    nat → string → string → string → Z → bool → W →
    list MsgEntity * option error * W;
  log_ErrorContextFormat : string → list log_arg → W → W;
  range_order : W → gmap MsgEntity Z → list (MsgEntity * Z);
  range_order_perm : ∀ w m, range_order w m ≡ₚ map_to_list m
}.

(** [err == nil] *)
Definition is_nil (err : option error) : bool :=
  match err with None => true | Some _ => false end.

Section Model.

Context {W : Type} `{!Outside W}.

(** *** Computations

    A computation reads and writes the world, appends to the trace of
    observable events and either returns a value or panics. *)

Definition M (A : Type) : Type := W → option A * W * list Event.

Definition ret {A} (a : A) : M A := λ w, (Some a, w, []).

Definition bind {A B} (k : A → M B) (m : M A) : M B :=
  λ w, match m w with
       | (Some a, w1, t1) =>
           match k a w1 with (r, w2, t2) => (r, w2, t1 ++ t2) end
       | (None, w1, t1) => (None, w1, t1)
       end.

(** stdpp's notations [x ← m; k] and [m ;; k] for [bind]. *)
Global Instance M_ret : MRet M := @ret.
Global Instance M_bind : MBind M := @bind.

Definition panic {A} : M A := λ w, (None, w, []).

Definition emit (e : Event) : M unit := λ w, (Some tt, w, [e]).

(** An operation of the outside world. *)
Definition call {A} (f : W → A * W) : M A :=
  λ w, match f w with (a, w1) => (Some a, w1, []) end.

Definition effect (f : W → W) : M unit := λ w, (Some tt, f w, []).

(** *** Package redis: the client *)

Record Client := mkClient { pool : nat }.

(** [func (c *Client) XAck(ctx, topic, groupID, msgID string) error] *)
Definition XAck (c : option Client) (topic groupID msgID : string)
  : M (option error) :=
  if bool_decide (topic = "" ∨ groupID = "" ∨ msgID = "") then
    mret (Some (errors_New
                  "redis XAck topic | group_id | msg_ id can't be empty"))
  else
    match c with
    | None => panic
    | Some cl =>
        err ← call (pool_GetContext (pool cl));
        match err with
        | Some e => mret (Some e)
        | None =>
            '(reply, err) ← call (conn_Do_XACK topic groupID msgID);
            effect conn_Close;;
            match err with
            | Some e => mret (Some e)
            | None =>
                if bool_decide (reply ≠ 1) then
                  mret (Some (fmt_Errorf "invalid reply: %d" reply))
                else mret None
            end
        end
    end.

(** [func (c *Client) xReadGroup(ctx, groupID, consumerID, topic string,
    timeoutMilliseconds int, pending bool) ([]*MsgEntity, error)] *)
Definition xReadGroup (c : option Client) (groupID consumerID topic : string)
  (timeoutMilliseconds : Z) (pending : bool)
  : M (list MsgEntity * option error) :=
  if bool_decide (groupID = "" ∨ consumerID = "" ∨ topic = "") then
    mret ([], Some (errors_New
             "redis XREADGROUP groupID/consumerID/topic can't be empty"))
  else
    match c with
    | None => panic
    | Some cl =>
        call (xReadGroup_reply (pool cl) groupID consumerID topic
                timeoutMilliseconds pending)
    end.

Definition XReadGroupOldMsg (c : option Client)
  (groupID consumerID topic : string) :=
  xReadGroup c groupID consumerID topic 0 true.

Definition XReadGroupNewMsg (c : option Client)
  (groupID consumerID topic : string) (timeoutMilliseconds : Z) :=
  xReadGroup c groupID consumerID topic timeoutMilliseconds false.

(** *** deadLetter.go *)

(** A value of the interface [DeadLetterMailbox]: the logger of the
    package or an implementation of the user. *)
Inductive DeadLetterMailbox :=
  | DeadLetterLogger
  | UserMailbox (deliver : MsgEntity → W → MsgEntity * option error * W).

Definition NewDeadLetterLogger : DeadLetterMailbox := DeadLetterLogger.

(** [Deliver(ctx, msg)] with [msg] a pointer: the message as the
    mailbox leaves it, and the error.  The logger only reads it. *)
Definition Deliver (d : DeadLetterMailbox) (msg : MsgEntity)
  : M (MsgEntity * option error) :=
  match d with
  | DeadLetterLogger =>
      effect (log_ErrorContextFormat
                "msg fail execeed retry limit, msg id: %s"
                [arg_string (MsgID msg)]);;
      mret (msg, None)
  | UserMailbox deliver => call (deliver msg)
  end.

(** *** option.go *)

Record ConsumerOptions := mkOpts {
  receiveTimeout : time.Duration;
  maxRetryLimit : Z;
  deadLetterMailbox : option DeadLetterMailbox;
  deadLetterDeliverTimeout : time.Duration;
  handleMsgTimeout : time.Duration
}.

(** [&ConsumerOptions{}] *)
Definition zero_ConsumerOptions : ConsumerOptions :=
  mkOpts 0 0 None 0 0.

(** A [ConsumerOption] is a function value, possibly nil. *)
Definition ConsumerOption := option (ConsumerOptions → ConsumerOptions).

Definition WithReceiveTimeout (timeout : time.Duration) : ConsumerOption :=
  Some (λ o, mkOpts timeout (maxRetryLimit o) (deadLetterMailbox o)
               (deadLetterDeliverTimeout o) (handleMsgTimeout o)).

Definition WithMaxRetryLimit (limit : Z) : ConsumerOption :=
  Some (λ o, mkOpts (receiveTimeout o) limit (deadLetterMailbox o)
               (deadLetterDeliverTimeout o) (handleMsgTimeout o)).

Definition WithDeadLetterMailbox (mailbox : option DeadLetterMailbox)
  : ConsumerOption :=
  Some (λ o, mkOpts (receiveTimeout o) (maxRetryLimit o) mailbox
               (deadLetterDeliverTimeout o) (handleMsgTimeout o)).

Definition WithDeadLetterDeliverTimeout (timeout : time.Duration)
  : ConsumerOption :=
  Some (λ o, mkOpts (receiveTimeout o) (maxRetryLimit o)
               (deadLetterMailbox o) timeout (handleMsgTimeout o)).

Definition WithHandleMsgTimeout (timeout : time.Duration) : ConsumerOption :=
  Some (λ o, mkOpts (receiveTimeout o) (maxRetryLimit o)
               (deadLetterMailbox o) (deadLetterDeliverTimeout o) timeout).

(** [func repairConsumer(opts *ConsumerOptions)]: five assignments in a
    row, each under its own test. *)
Definition repairConsumer (opts : ConsumerOptions) : ConsumerOptions :=
  let opts :=
    if bool_decide (receiveTimeout opts < 0) then
      mkOpts (2 * time.Second) (maxRetryLimit opts) (deadLetterMailbox opts)
        (deadLetterDeliverTimeout opts) (handleMsgTimeout opts)
    else opts in
  let opts :=
    if bool_decide (maxRetryLimit opts < 0) then
      mkOpts (receiveTimeout opts) 3 (deadLetterMailbox opts)
        (deadLetterDeliverTimeout opts) (handleMsgTimeout opts)
    else opts in
  let opts :=
    match deadLetterMailbox opts with
    | None =>
        mkOpts (receiveTimeout opts) (maxRetryLimit opts)
          (Some NewDeadLetterLogger)
          (deadLetterDeliverTimeout opts) (handleMsgTimeout opts)
    | Some _ => opts
    end in
  let opts :=
    if bool_decide (deadLetterDeliverTimeout opts ≤ 0) then
      mkOpts (receiveTimeout opts) (maxRetryLimit opts)
        (deadLetterMailbox opts) time.Second (handleMsgTimeout opts)
    else opts in
  if bool_decide (handleMsgTimeout opts ≤ 0) then
    mkOpts (receiveTimeout opts) (maxRetryLimit opts)
      (deadLetterMailbox opts) (deadLetterDeliverTimeout opts) time.Second
  else opts.

(** *** consumer.go *)

(** [type MsgCallback func(ctx context.Context, msg *redis.MsgEntity) error]:
    the message as the callback leaves it, and the error. *)
Definition MsgCallback := MsgEntity → W → MsgEntity * option error * W.

(** [ctx] and [stop] come together from [context.WithCancel]: the record
    holds the context, and [stop] is [cancel] on it. *)
Record Consumer := mkConsumer {
  ctx : cancelCtx;
  callbackFunc : option MsgCallback;
  client : option Client;
  topic : string;
  groupID : string;
  consumerID : string;
  failureCounts : gmap MsgEntity Z;
  opts : ConsumerOptions
}.

Definition with_failureCounts (c : Consumer) (m : gmap MsgEntity Z)
  : Consumer :=
  mkConsumer (ctx c) (callbackFunc c) (client c) (topic c) (groupID c)
    (consumerID c) m (opts c).

Definition with_opts (c : Consumer) (o : ConsumerOptions) : Consumer :=
  mkConsumer (ctx c) (callbackFunc c) (client c) (topic c) (groupID c)
    (consumerID c) (failureCounts c) o.

Definition is_nil_callback (c : Consumer) : bool :=
  match callbackFunc c with None => true | Some _ => false end.

Definition is_nil_client (c : Consumer) : bool :=
  match client c with None => true | Some _ => false end.

(** [func (c *Consumer) checkParam() error] *)
Definition checkParam (c : Consumer) : option error :=
  if is_nil_callback c then
    Some (errors_New "callback function can't be empty")
  else if is_nil_client c then
    Some (errors_New "redis client can't be empty")
  else if bool_decide (topic c = "" ∨ consumerID c = "" ∨ groupID c = "")
  then Some (errors_New "topic | group_id | consumer_id can't be empty")
  else None.

(** [func (c *Consumer) Stop()] *)
Definition Stop (c : Consumer) : Consumer :=
  mkConsumer (cancel (ctx c)) (callbackFunc c) (client c) (topic c)
    (groupID c) (consumerID c) (failureCounts c) (opts c).

(** [func (c *Consumer) receive() ([]*redis.MsgEntity, error)] *)
Definition receive (c : Consumer) : M (list MsgEntity * option error) :=
  '(msg, err) ← XReadGroupNewMsg (client c) (groupID c) (consumerID c)
                  (topic c) (time.Milliseconds (receiveTimeout (opts c)));
  match err with
  | Some e =>
      if negb (errors_Is e ErrNoMsg) then mret ([], Some e)
      else mret (msg, None)
  | None => mret (msg, None)
  end.

(** [func (c *Consumer) receivePending() ([]*redis.MsgEntity, error)] *)
Definition receivePending (c : Consumer)
  : M (list MsgEntity * option error) :=
  '(pendingMsg, err) ← XReadGroupOldMsg (client c) (groupID c)
                         (consumerID c) (topic c);
  match err with
  | Some e =>
      if negb (errors_Is e ErrNoMsg) then mret ([], Some e)
      else mret (pendingMsg, None)
  | None => mret (pendingMsg, None)
  end.

(** The body of the loop of [handlerMsg], for one message: [msg] is
    the message behind the pointer when the callback is called, [now] the
    message behind it when the callback has returned, which is the one
    that [*msg] and [msg.MsgID] read afterwards. *)
Definition handlerMsg_body (c : Consumer) (msg : MsgEntity) : M Consumer :=
  match callbackFunc c with
  | None => panic
  | Some callback =>
      '(now, err) ← call (callback msg);
      emit (ECallback msg now (is_nil err));;
      match err with
      | Some _ =>
          mret (with_failureCounts c
                  (<[now := GoInt.incr (default 0 (failureCounts c !! now))]>
                     (failureCounts c)))
      | None =>
          err ← XAck (client c) (topic c) (groupID c) (MsgID now);
          emit (EAck (MsgID now) (is_nil err));;
          match err with
          | Some e =>
              effect (log_ErrorContextFormat
                        "msg ack failed, msg id: %s, err: %v"
                        [arg_string (MsgID now); arg_error e]);;
              mret c
          | None =>
              mret (with_failureCounts c (delete now (failureCounts c)))
          end
      end
  end.

(** [func (c *Consumer) handlerMsg(ctx, messages []*redis.MsgEntity)] *)
Fixpoint handlerMsg (c : Consumer) (messages : list MsgEntity)
  : M Consumer :=
  match messages with
  | [] => mret c
  | msg :: rest => c ← handlerMsg_body c msg; handlerMsg c rest
  end.

(** The body of the loop of [deliverDeadLetter], for one entry of the
    map: [msg] is the range variable when [Deliver] is called with its
    address, [now] the same variable when [Deliver] has returned, which
    is the one that [msg.MsgID] and [delete] read afterwards. *)
Definition deliverDeadLetter_body (c : Consumer) (entry : MsgEntity * Z)
  : M Consumer :=
  let '(msg, failureCnt) := entry in
  if bool_decide (failureCnt < maxRetryLimit (opts c)) then mret c
  else
    match deadLetterMailbox (opts c) with
    | None => panic
    | Some mailbox =>
        '(now, err) ← Deliver mailbox msg;
        emit (EDeliver msg failureCnt now (is_nil err));;
        match err with
        | Some e =>
            effect (log_ErrorContextFormat
                      "dead letter deliver failed, msg id: %s, err: %v"
                      [arg_string (MsgID now); arg_error e])
        | None => mret tt
        end;;
        err ← XAck (client c) (topic c) (groupID c) (MsgID now);
        emit (EAck (MsgID now) (is_nil err));;
        match err with
        | Some e =>
            effect (log_ErrorContextFormat
                      "msg ack failed, msg id: %s, err: %v"
                      [arg_string (MsgID now); arg_error e]);;
            mret c
        | None =>
            mret (with_failureCounts c (delete now (failureCounts c)))
        end
    end.

(** The walk of [range] over the entries the map had when the loop
    began, in the order of [entries]: an entry that the loop has removed
    before reaching it is not produced; the others are produced with the
    count they have in the map. *)
Fixpoint deliverDeadLetter_range (c : Consumer)
  (entries : list (MsgEntity * Z)) : M Consumer :=
  match entries with
  | [] => mret c
  | entry :: rest =>
      c ← match failureCounts c !! entry.1 with
          | Some failureCnt => deliverDeadLetter_body c (entry.1, failureCnt)
          | None => mret c
          end;
      deliverDeadLetter_range c rest
  end.

(** [func (c *Consumer) deliverDeadLetter(ctx context.Context)].  The
    loop adds no entry to the map: [range] walks the entries the map had
    when the loop began, each at most once. *)
Definition deliverDeadLetter (c : Consumer) : M Consumer :=
  entries ← call (λ w, (range_order w (failureCounts c), w));
  deliverDeadLetter_range c entries.

(** One turn of the loop of [run], after the [select] found the context
    alive. *)
Definition run_iteration (c : Consumer) : M Consumer :=
  '(msg, err) ← receive c;
  match err with
  | Some e =>
      effect (log_ErrorContextFormat "receive msg failed, err: %v"
                [arg_error e]);;
      mret c
  | None =>
      c ← handlerMsg c msg;
      c ← deliverDeadLetter c;
      '(pendingMsg, err) ← receivePending c;
      match err with
      | Some e =>
          effect (log_ErrorContextFormat
                    "pending msg received failed, err: %v" [arg_error e]);;
          mret c
      | None => handlerMsg c pendingMsg
      end
  end.

(** [func (c *Consumer) run()].  [Stop] is called from other goroutines:
    the schedule tells, for each arrival of the loop at its [select],
    whether [Stop] has been called since the last one.  The loop runs
    as long as the schedule lasts and the context is alive. *)
Fixpoint run (schedule : list bool) (c : Consumer) : M Consumer :=
  match schedule with
  | [] => mret c
  | stop_called :: later =>
      let c := if stop_called then Stop c else c in
      if done_closed (ctx c) then mret c
      else c ← run_iteration c; run later c
  end.

(** A goroutine started by the package. *)
Inductive goroutine := go_run (c : Consumer).

(** What a call of [NewConsumer] comes to: it returns its two results,
    having started some goroutines, or it panics. *)
Inductive NewConsumer_outcome :=
  | returned (c : option Consumer) (err : option error)
      (started : list goroutine)
  | panicked.

(** [for _, opt := range opts { opt(c.opts) }] *)
Fixpoint apply_options (options : list ConsumerOption) (o : ConsumerOptions)
  : option ConsumerOptions :=
  match options with
  | [] => Some o
  | None :: _ => None
  | Some opt :: rest => apply_options rest (opt o)
  end.

(** [func NewConsumer(client, topic, groupID, consumerID, callbackFunc,
    opts ...ConsumerOption)], which returns a pointer to the consumer
    and an error. *)
Definition NewConsumer (client : option Client)
  (topic groupID consumerID : string) (callbackFunc : option MsgCallback)
  (options : list ConsumerOption) : NewConsumer_outcome :=
  let c := mkConsumer context_WithCancel callbackFunc client topic groupID
             consumerID ∅ zero_ConsumerOptions in
  match checkParam c with
  | Some err => returned None (Some err) []
  | None =>
      match apply_options options (opts c) with
      | None => panicked
      | Some o =>
          let c := with_opts c (repairConsumer o) in
          returned (Some c) None [go_run c]
      end
  end.

End Model.

(** ** A simulated world

    A small world to run the model in: the server answers every XACK with
    [sim_reply], every read of new messages with [sim_new] and every read
    of pending messages with [sim_pending] (an empty answer is "no
    message"); the log is kept; [range] walks the map in the order of
    [map_to_list]. *)

Record Sim := mkSim {
  sim_conn_err : option error;
  sim_reply : Z;
  sim_reply_err : option error;
  sim_new : list MsgEntity;
  sim_pending : list MsgEntity;
  sim_log : list (string * list log_arg)
}.

Definition sim_answer (msgs : list MsgEntity)
  : list MsgEntity * option error :=
  match msgs with
  | [] => ([], Some ErrNoMsg)
  | _ => (msgs, None)
  end.

Global Instance Sim_outside : Outside Sim := {|
  pool_GetContext _ w := (sim_conn_err w, w);
  conn_Do_XACK _ _ _ w := (sim_reply w, sim_reply_err w, w);
  conn_Close w := w;
  xReadGroup_reply _ _ _ _ _ pending w :=
    (sim_answer (if pending then sim_pending w else sim_new w), w);
  log_ErrorContextFormat format args w :=
    mkSim (sim_conn_err w) (sim_reply w) (sim_reply_err w) (sim_new w)
      (sim_pending w) (sim_log w ++ [(format, args)]);
  range_order _ m := map_to_list m;
  range_order_perm _ m := Permutation_refl (map_to_list m)
|}.

(** A server that acknowledges one record at each XACK. *)
Definition sim_acking (new pending : list MsgEntity) : Sim :=
  mkSim None 1 None new pending [].

(** A server that answers each XACK with [reply]. *)
Definition sim_replying (reply : Z) : Sim := mkSim None reply None [] [] [].

Definition callback_ok : @MsgCallback Sim := λ msg w, (msg, None, w).
Definition callback_failing : @MsgCallback Sim :=
  λ msg w, (msg, Some (errors_New "callback failed"), w).
Definition mailbox_failing : @DeadLetterMailbox Sim :=
  UserMailbox (λ msg w, (msg, Some (errors_New "mailbox unreachable"), w)).

(** A callback and a mailbox that write the key of the message they are
    handed. *)
Definition rewritten (msg : MsgEntity) : MsgEntity :=
  mkMsg (MsgID msg) "rewritten" (Val msg).
Definition callback_rewriting : @MsgCallback Sim :=
  λ msg w, (rewritten msg, None, w).
Definition callback_rewriting_failing : @MsgCallback Sim :=
  λ msg w, (rewritten msg, Some (errors_New "callback failed"), w).
Definition mailbox_rewriting : @DeadLetterMailbox Sim :=
  UserMailbox (λ msg w, (rewritten msg, None, w)).

Definition msg1 : MsgEntity := mkMsg "1710403869444-0" "k1" "v1".
Definition msg2 : MsgEntity := mkMsg "1710403869445-0" "k2" "v2".

(** A callback that overwrites every message it is handed with the same
    message, and fails on the first of the two messages above only. *)
Definition merged : MsgEntity := mkMsg "1710403869446-0" "merged" "v".
Definition callback_merging : @MsgCallback Sim :=
  λ msg w,
    (merged,
     if bool_decide (MsgID msg = MsgID msg1)
     then Some (errors_New "callback failed") else None,
     w).

Definition the_client : option Client := Some (mkClient 0).

(** The consumer that [NewConsumer] returns for the topic "T", the group
    "G" and the consumer id "c1", with the options [WithMaxRetryLimit
    limit] and [WithDeadLetterMailbox mailbox]. *)
Definition sim_consumer (callback : @MsgCallback Sim) (limit : Z)
  (mailbox : option (@DeadLetterMailbox Sim)) : @Consumer Sim :=
  mkConsumer context_WithCancel (Some callback) the_client "T" "G" "c1" ∅
    (repairConsumer (mkOpts 0 limit mailbox 0 0)).

(** A table with two entries, one at the limit of 2 and one below. *)
Definition sim_two_entries : @Consumer Sim :=
  with_failureCounts (sim_consumer callback_failing 2 None)
    (<[msg1 := 2]> (<[msg2 := 1]> ∅)).

(** ** Vocabulary of the properties *)

Definition is_callback_failure (e : Event) : bool :=
  match e with ECallback _ _ false => true | _ => false end.

(** How many times the callback has failed in a trace. *)
Definition callback_failures (t : list Event) : nat :=
  length (List.filter is_callback_failure t).

(** Does the event [prev] allow an acknowledgment of [msgID] as the very
    next event?  A successful callback that left a message with that id
    does; when [escalation] is a limit, a delivery to the dead-letter
    mailbox that left a message with that id does, for an entry whose
    count is at or above the limit. *)
Definition allows_ack (escalation : option Z) (prev : option Event)
  (msgID : string) : bool :=
  match prev with
  | Some (ECallback _ after true) => bool_decide (MsgID after = msgID)
  | Some (EDeliver _ failureCnt after _) =>
      match escalation with
      | Some limit =>
          bool_decide (limit ≤ failureCnt) && bool_decide (MsgID after = msgID)
      | None => false
      end
  | _ => false
  end.

(** Every acknowledgment of the trace [t], which follows the event
    [prev], comes right after an event that allows it. *)
Fixpoint acks_allowed (escalation : option Z) (prev : option Event)
  (t : list Event) : bool :=
  match t with
  | [] => true
  | e :: t' =>
      match e with
      | EAck msgID _ => allows_ack escalation prev msgID
      | _ => true
      end && acks_allowed escalation (Some e) t'
  end.

Section Vocabulary.

Context {W : Type} `{!Outside W}.

(** A consumer as [NewConsumer] makes them: callback, client and
    mailbox are there. *)
Definition ready (c : @Consumer W) : Prop :=
  is_Some (callbackFunc c) ∧ is_Some (client c) ∧
  is_Some (deadLetterMailbox (opts c)).

(** The failure count of a message: its entry, or zero. *)
Definition count (c : @Consumer W) (msg : MsgEntity) : Z :=
  default 0 (failureCounts c !! msg).

(** The two consumers differ at most in their context and in their
    failure-count table. *)
Definition same_setup (c c' : @Consumer W) : Prop :=
  callbackFunc c' = callbackFunc c ∧ client c' = client c ∧
  topic c' = topic c ∧ groupID c' = groupID c ∧
  consumerID c' = consumerID c ∧ opts c' = opts c.

(** [steps c h c']: the consumer [c] becomes [c'], with the trace [h],
    by handling messages and escalating entries of its table, one at a
    time, in any order and in any world, and by being stopped. *)
Inductive steps : @Consumer W → list Event → @Consumer W → Prop :=
  | steps_nil c : steps c [] c
  | steps_stop c h c1 : steps c h c1 → steps c h (Stop c1)
  | steps_handle c h c1 msg w c2 w2 t :
      steps c h c1 →
      handlerMsg_body c1 msg w = (Some c2, w2, t) →
      steps c (h ++ t) c2
  | steps_escalate c h c1 msg failureCnt w c2 w2 t :
      steps c h c1 →
      failureCounts c1 !! msg = Some failureCnt →
      deliverDeadLetter_body c1 (msg, failureCnt) w = (Some c2, w2, t) →
      steps c (h ++ t) c2.

(** The trace [t] shows the removal of the entry of [msg]: a
    successful acknowledgment right after a successful callback that
    left [msg], or right after a delivery to the mailbox that left
    [msg]. *)
Definition shows_removal (msg : MsgEntity) (t : list Event) : Prop :=
  ∃ pre post handed,
    t = pre ++ [ECallback handed msg true; EAck (MsgID msg) true] ++ post ∨
    ∃ failureCnt delivered,
      t = pre ++ [EDeliver handed failureCnt msg delivered;
                  EAck (MsgID msg) true] ++ post.

(** A function of the user that only reads the message it is handed. *)
Definition leaves_message (f : MsgEntity → W → MsgEntity * option error * W)
  : Prop :=
  ∀ msg w, (f msg w).1.1 = msg.

(** The callback of the consumer only reads the messages. *)
Definition callback_reads_only (c : @Consumer W) : Prop :=
  match callbackFunc c with
  | Some callback => leaves_message callback
  | None => True
  end.

(** The mailbox of the consumer only reads the messages. *)
Definition mailbox_reads_only (c : @Consumer W) : Prop :=
  match deadLetterMailbox (opts c) with
  | Some (UserMailbox deliver) => leaves_message deliver
  | _ => True
  end.

End Vocabulary.

(** ** More of the packages

    The rest of the stream client that the consumer and the producer
    use, the producer, and the options of the client. *)

(** *** Replies of the server

    What redigo's [conn.Do] returns, an [interface{}]: nil, an [int64], a
    [string] (a simple string), a [[]byte] (a bulk string), a
    [[]interface{}] (an array) or a [redis.Error]. *)

#[warnings="-register-all"]
Inductive reply :=
  | reply_nil
  | reply_int (n : Z)
  | reply_string (s : string)
  | reply_bytes (s : string)
  | reply_array (items : list reply)
  | reply_error (text : string).

(** [v, _ := r.([]interface{})]: the items of an array, and a nil slice
    for any other value. *)
Definition as_array (r : reply) : list reply :=
  match r with
  | reply_array items => items
  | _ => []
  end.

Definition invalid_msg_format : error := errors_New "invalid msg format".

Section Parsing.

(** [gocast.ToString], of the library gocast. *)
Variable gocast_ToString : reply → string.

(** The loop of [xReadGroup] over the raw messages, [msg] being the
    messages appended so far. *)
Fixpoint xReadGroup_entries (rawMsg : list reply) (msg : list MsgEntity)
  : list MsgEntity * option error :=
  match rawMsg with
  | [] => (msg, None)
  | raw :: rest =>
      match as_array raw with
      | [rawID; rawBody] =>
          match as_array rawBody with
          | [rawKey; rawVal] =>
              xReadGroup_entries rest
                (msg ++ [mkMsg (gocast_ToString rawID) (gocast_ToString rawKey)
                           (gocast_ToString rawVal)])
          | _ => ([], Some invalid_msg_format)
          end
      | _ => ([], Some invalid_msg_format)
      end
  end.

(** What [xReadGroup] makes of the reply to XREADGROUP, from
    [reply, _ := rawReply.([]interface{})] to its last line. *)
Definition xReadGroup_parse (rawReply : reply)
  : list MsgEntity * option error :=
  match as_array rawReply with
  | [] => ([], Some ErrNoMsg)
  | first :: _ =>
      match as_array first with
      | [_; rawMsgs] => xReadGroup_entries (as_array rawMsgs) []
      | _ => ([], Some invalid_msg_format)
      end
  end.

(** The reply of the server to XREADGROUP for one stream: the name of
    the stream and its entries, each an id and a body of one field and
    its value. *)
Definition entry_reply (msg : MsgEntity) : reply :=
  reply_array [reply_bytes (MsgID msg);
               reply_array [reply_bytes (Key msg); reply_bytes (Val msg)]].

Definition stream_reply (topic : string) (msgs : list MsgEntity) : reply :=
  reply_array [reply_array [reply_bytes topic;
                            reply_array (entry_reply <$> msgs)]].

End Parsing.

(** A conversion to strings that is the identity on strings, for the
    simulated world. *)
Definition sim_ToString (r : reply) : string :=
  match r with
  | reply_string s | reply_bytes s | reply_error s => s
  | _ => ""
  end.

(** *** The producer (producer.go, option.go) and [XAddMsg] *)

Record ProducerOptions := mkProducerOptions { msgQueueLen : Z }.

(** A [ProducerOption] is a function value, possibly nil. *)
Definition ProducerOption := option (ProducerOptions → ProducerOptions).

Definition WithMsgQueueLen (len : Z) : ProducerOption :=
  Some (λ _, mkProducerOptions len).

(** [func repairProducer(opts *ProducerOptions)] *)
Definition repairProducer (opts : ProducerOptions) : ProducerOptions :=
  if bool_decide (msgQueueLen opts ≤ 0) then mkProducerOptions 500 else opts.

Record Producer := mkProducer {
  producer_client : option Client;
  producer_opts : ProducerOptions
}.

(** [for _, opt := range opts { opt(p.opts) }] *)
Fixpoint apply_producer_options (options : list ProducerOption)
  (o : ProducerOptions) : option ProducerOptions :=
  match options with
  | [] => Some o
  | None :: _ => None
  | Some opt :: rest => apply_producer_options rest (opt o)
  end.

(** [func NewProducer(client *redis.Client, opts ...ProducerOption)
    *Producer]; [None] is a panic, on a nil option. *)
Definition NewProducer (client : option Client)
  (options : list ProducerOption) : option Producer :=
  match apply_producer_options options (mkProducerOptions 0) with
  | None => None
  | Some o => Some (mkProducer client (repairProducer o))
  end.

Section Sending.

Context {W : Type} `{!Outside W}.

(** [redis.String(conn.Do("XADD", topic, "MAXLEN", maxLen, "*", key,
    val))]: the id the server gave the entry, and the error. *)
Variable conn_Do_XADD :
  string → Z → string → string → W → string * option error * W.

(** [func (c *Client) XAddMsg(ctx, topic string, maxLen int, key, val
    string) (string, error)] *)
Definition XAddMsg (c : option Client) (topic : string) (maxLen : Z)
  (key val : string) : M (string * option error) :=
  if bool_decide (topic = "") then
    mret ("", Some (errors_New "redis XADD topic can't be empty"))
  else
    match c with
    | None => panic
    | Some cl =>
        err ← call (pool_GetContext (pool cl));
        match err with
        | Some e => mret ("", Some e)
        | None =>
            r ← call (conn_Do_XADD topic maxLen key val);
            effect conn_Close;;
            mret r
        end
    end.

(** [func (p *Producer) SendMsg(ctx, topic, key, val string) (string,
    error)] *)
Definition SendMsg (p : Producer) (topic key val : string)
  : M (string * option error) :=
  XAddMsg (producer_client p) topic (msgQueueLen (producer_opts p)) key val.

End Sending.

(** A server that gives every entry the id of [msg1]. *)
Definition sim_XADD (topic : string) (maxLen : Z) (key val : string)
  (w : Sim) : string * option error * Sim :=
  (MsgID msg1, None, w).

(** *** The options of the client *)

Module client.

Definition DefaultIdleTimeoutSeconds : Z := 10.
Definition DefaultMaxActive : Z := 100.
Definition DefaultMaxIdle : Z := 20.

Record ClientOptions := mkClientOptions {
  maxIdle : Z;
  idleTimeoutSeconds : Z;
  maxActive : Z;
  wait : bool;
  network : string;
  address : string;
  password : string
}.

Definition ClientOption := option (ClientOptions → ClientOptions).

Definition WithMaxIdle (n : Z) : ClientOption :=
  Some (λ c, mkClientOptions n (idleTimeoutSeconds c) (maxActive c) (wait c)
               (network c) (address c) (password c)).

Definition WithIdleTimeoutSeconds (n : Z) : ClientOption :=
  Some (λ c, mkClientOptions (maxIdle c) n (maxActive c) (wait c)
               (network c) (address c) (password c)).

Definition WithMaxActive (n : Z) : ClientOption :=
  Some (λ c, mkClientOptions (maxIdle c) (idleTimeoutSeconds c) n (wait c)
               (network c) (address c) (password c)).

Definition WithWaitMode : ClientOption :=
  Some (λ c, mkClientOptions (maxIdle c) (idleTimeoutSeconds c) (maxActive c)
               true (network c) (address c) (password c)).

(** [func repairClient(c *ClientOptions)] *)
Definition repairClient (c : ClientOptions) : ClientOptions :=
  let c :=
    if bool_decide (maxIdle c < 0) then
      mkClientOptions DefaultMaxIdle (idleTimeoutSeconds c) (maxActive c)
        (wait c) (network c) (address c) (password c)
    else c in
  let c :=
    if bool_decide (idleTimeoutSeconds c < 0) then
      mkClientOptions (maxIdle c) DefaultIdleTimeoutSeconds (maxActive c)
        (wait c) (network c) (address c) (password c)
    else c in
  if bool_decide (maxActive c < 0) then
    mkClientOptions (maxIdle c) (idleTimeoutSeconds c) DefaultMaxActive
      (wait c) (network c) (address c) (password c)
  else c.

(** [for _, opt := range opts { opt(c.options) }] *)
Fixpoint apply_options (options : list ClientOption) (c : ClientOptions)
  : option ClientOptions :=
  match options with
  | [] => Some c
  | None :: _ => None
  | Some opt :: rest => apply_options rest (opt c)
  end.

(** The numbers of a [redis.Pool]; its two functions, [Dial] and
    [TestOnBorrow], are left out. *)
Record Pool := mkPool {
  MaxIdle : Z;
  IdleTimeout : time.Duration;
  MaxActive : Z;
  Wait : bool
}.

(** [func (c *Client) getRedisPool() *redis.Pool]: the idle timeout is
    [time.Duration(c.options.idleTimeoutSeconds) * time.Second], a
    product of 64-bit integers. *)
Definition getRedisPool (o : ClientOptions) : Pool :=
  mkPool (maxIdle o) (GoInt.wrap (idleTimeoutSeconds o * time.Second))
    (maxActive o) (wait o).

(** The pool of the client that [NewClient] returns: the three
    arguments, the options applied in order, the repair, then
    [getRedisPool]; [None] is a panic, on a nil option. *)
Definition NewClient_pool (network address password : string)
  (options : list ClientOption) : option Pool :=
  match apply_options options
          (mkClientOptions 0 0 0 false network address password) with
  | None => None
  | Some c => Some (getRedisPool (repairClient c))
  end.

End client.

(** *** More vocabulary *)

(** The messages the callback was called on, in order. *)
Definition callbacks_of (t : list Event) : list MsgEntity :=
  omap (λ e, match e with ECallback msg _ _ => Some msg | _ => None end) t.

(** The messages delivered to the mailbox, in order. *)
Definition delivered_of (t : list Event) : list MsgEntity :=
  omap (λ e, match e with EDeliver msg _ _ _ => Some msg | _ => None end) t.

(** How many times the callback has failed and left [msg] in a trace:
    the failures of the callback on [msg], for a callback that only
    reads. *)
Definition failures_of (msg : MsgEntity) (t : list Event) : nat :=
  length (List.filter
            (λ e, match e with
                  | ECallback _ after false => bool_decide (after = msg)
                  | _ => false
                  end) t).

(** Unfold the operations of computations. *)
Ltac unfold_M :=
  unfold mbind, mret, M_bind, M_ret, bind, ret, call, effect, emit, panic
    in *.


(** ** Properties *)

Lemma GoInt_wrap_small z :
  GoInt.min_int ≤ z ≤ GoInt.max_int → GoInt.wrap z = z.
Proof.
  unfold GoInt.wrap, GoInt.min_int, GoInt.max_int. intros Hz.
  rewrite Z.mod_small; lia.
Qed.

Lemma GoInt_incr_small z :
  GoInt.min_int ≤ z < GoInt.max_int → GoInt.incr z = z + 1.
Proof. intros Hz. unfold GoInt.incr. apply GoInt_wrap_small. lia. Qed.

Section Properties.

Context {W : Type} `{!Outside W}.

Implicit Types (c : @Consumer W) (w : W) (msg : MsgEntity).

(** *** Construction and configuration *)

(** The repaired options, field by field. *)
Lemma repairConsumer_fields (o : @ConsumerOptions W) :
  repairConsumer o =
    mkOpts
      (if bool_decide (receiveTimeout o < 0) then 2 * time.Second
       else receiveTimeout o)
      (if bool_decide (maxRetryLimit o < 0) then 3 else maxRetryLimit o)
      (Some (default DeadLetterLogger (deadLetterMailbox o)))
      (if bool_decide (deadLetterDeliverTimeout o ≤ 0) then time.Second
       else deadLetterDeliverTimeout o)
      (if bool_decide (handleMsgTimeout o ≤ 0) then time.Second
       else handleMsgTimeout o).
Proof.
  destruct o as [rt lim mb dlt hmt]. unfold repairConsumer. cbn.
  destruct (bool_decide (rt < 0)); cbn;
    destruct (bool_decide (lim < 0)); cbn;
    destruct mb; cbn;
    destruct (bool_decide (dlt ≤ 0)); cbn;
    destruct (bool_decide (hmt ≤ 0)); reflexivity.
Qed.

(** C7.  [repairConsumer] gives each field its default when, and only
    when, the field is unset: a negative receive timeout becomes 2
    seconds, a negative retry limit becomes 3, an absent mailbox becomes
    the logger, a dead-letter timeout or a handling timeout that is not
    positive becomes 1 second; a field that is set is kept.  The tests
    are independent of one another.  The logger's [Deliver] writes one
    log line, leaves the message as it is and returns nil. *)
Theorem repairConsumer_defaults (o : @ConsumerOptions W) :
  let r := repairConsumer o in
  (receiveTimeout o < 0 → receiveTimeout r = 2 * time.Second) ∧
  (0 ≤ receiveTimeout o → receiveTimeout r = receiveTimeout o) ∧
  (maxRetryLimit o < 0 → maxRetryLimit r = 3) ∧
  (0 ≤ maxRetryLimit o → maxRetryLimit r = maxRetryLimit o) ∧
  (deadLetterMailbox o = None →
   deadLetterMailbox r = Some DeadLetterLogger) ∧
  (∀ mailbox, deadLetterMailbox o = Some mailbox →
              deadLetterMailbox r = Some mailbox) ∧
  (deadLetterDeliverTimeout o ≤ 0 →
   deadLetterDeliverTimeout r = time.Second) ∧
  (0 < deadLetterDeliverTimeout o →
   deadLetterDeliverTimeout r = deadLetterDeliverTimeout o) ∧
  (handleMsgTimeout o ≤ 0 → handleMsgTimeout r = time.Second) ∧
  (0 < handleMsgTimeout o → handleMsgTimeout r = handleMsgTimeout o) ∧
  (∀ msg w, Deliver DeadLetterLogger msg w =
            (Some (msg, None),
             log_ErrorContextFormat
               "msg fail execeed retry limit, msg id: %s"
               [arg_string (MsgID msg)] w,
             [])).
Proof.
  cbn zeta. rewrite repairConsumer_fields. cbn.
  split; [intros; by rewrite bool_decide_true by done|].
  split; [intros; by rewrite bool_decide_false by lia|].
  split; [intros; by rewrite bool_decide_true by done|].
  split; [intros; by rewrite bool_decide_false by lia|].
  split; [by intros ->|]. split; [by intros mailbox ->|].
  split; [intros; by rewrite bool_decide_true by done|].
  split; [intros; by rewrite bool_decide_false by lia|].
  split; [intros; by rewrite bool_decide_true by done|].
  split; [intros; by rewrite bool_decide_false by lia|].
  done.
Qed.

Lemma checkParam_nil c :
  checkParam c = None ↔
  callbackFunc c ≠ None ∧ client c ≠ None ∧
  topic c ≠ "" ∧ groupID c ≠ "" ∧ consumerID c ≠ "".
Proof.
  unfold checkParam, is_nil_callback, is_nil_client.
  destruct (callbackFunc c), (client c); try case_bool_decide;
    (split; [intros Hnil | intros (Hcb & Hcl & Ht & Hg & Hc)]);
    first [ discriminate | congruence | tauto
          | repeat split; first [ discriminate | tauto ] ].
Qed.

(** The options are applied unless one of them is nil. *)
Lemma apply_options_None (options : list (@ConsumerOption W)) o :
  apply_options options o = None ↔ None ∈ options.
Proof.
  revert o. induction options as [|[f|] options IH]; intros o; cbn.
  - split; [done|]. by intros ?%elem_of_nil.
  - rewrite IH. split; [by right|].
    by intros [[=]|?]%elem_of_cons.
  - split; [by left|done].
Qed.

(** C5.  [NewConsumer] returns an error exactly when the callback is
    nil, the client is nil, or one of topic, group and consumer id is
    empty; then it returns no consumer and starts no goroutine.  When
    it returns without an error it has started one goroutine, the loop
    of the consumer it returns, whose context is alive and whose
    failure-count table is empty; and so it does whenever the arguments
    are there and no option is nil (a nil option, after the arguments
    have been found good, is a panic).  It never waits: it is a function
    of its arguments alone, and the loop is only started. *)
Theorem NewConsumer_error_iff (cl : option Client)
  (topic groupID consumerID : string) (callback : option (@MsgCallback W))
  (options : list (@ConsumerOption W)) :
  let outcome := NewConsumer cl topic groupID consumerID callback options in
  ((∃ r err started, outcome = returned r (Some err) started) ↔
   (callback = None ∨ cl = None ∨
    topic = "" ∨ groupID = "" ∨ consumerID = "")) ∧
  (∀ r err started,
     outcome = returned r (Some err) started → r = None ∧ started = []) ∧
  (∀ r started,
     outcome = returned r None started →
     ∃ c, r = Some c ∧ started = [go_run c] ∧
          done_closed (ctx c) = false ∧ failureCounts c = ∅) ∧
  (callback ≠ None → cl ≠ None →
   topic ≠ "" → groupID ≠ "" → consumerID ≠ "" →
   None ∉ options →
   ∃ c, outcome = returned (Some c) None [go_run c] ∧
        done_closed (ctx c) = false ∧ failureCounts c = ∅) ∧
  (outcome = panicked ↔
   (callback ≠ None ∧ cl ≠ None ∧
    topic ≠ "" ∧ groupID ≠ "" ∧ consumerID ≠ "") ∧ None ∈ options).
Proof.
  unfold NewConsumer. cbn zeta.
  destruct (checkParam _) as [e|] eqn:Hcheck.
  - assert (¬ (callback ≠ None ∧ cl ≠ None ∧
               topic ≠ "" ∧ groupID ≠ "" ∧ consumerID ≠ "")) as Hbad.
    { intros Hgood.
      assert (checkParam
                (mkConsumer context_WithCancel callback cl topic groupID
                   consumerID ∅ zero_ConsumerOptions) = None) as Hnil
        by (by apply checkParam_nil).
      congruence. }
    split; [|split; [|split; [|split]]].
    + split; [intros _ | intros _; eauto].
      destruct (decide (callback = None)) as [|Hcb]; [tauto|].
      destruct (decide (cl = None)) as [|Hcl]; [tauto|].
      destruct (decide (topic = "")) as [|Ht]; [tauto|].
      destruct (decide (groupID = "")) as [|Hg]; [tauto|].
      destruct (decide (consumerID = "")) as [|Hc]; [tauto|].
      exfalso. tauto.
    + intros r err started [= <- _ <-]. done.
    + intros r started [=].
    + intros. exfalso. tauto.
    + split; [done|]. intros [Hgood _]. tauto.
  - apply checkParam_nil in Hcheck. cbn in Hcheck.
    destruct Hcheck as (Hcb & Hcl & Ht & Hg & Hc). cbn [opts].
    destruct (apply_options options zero_ConsumerOptions) as [o|] eqn:Happly;
      (split; [|split; [|split; [|split]]]).
    + split; [intros (? & ? & ? & [=]) | tauto].
    + intros r err started [=].
    + intros r started [= <- <-]. eexists. repeat split.
    + intros _ _ _ _ _ _. eexists. repeat split.
    + split; [done|]. intros [_ Hin].
      apply (proj2 (apply_options_None _ zero_ConsumerOptions)) in Hin.
      congruence.
    + split; [intros (? & ? & ? & [=]) | tauto].
    + intros r err started [=].
    + intros r started [=].
    + intros _ _ _ _ _ Hnone. exfalso. apply Hnone.
      by apply (proj1 (apply_options_None _ _)) in Happly.
    + split; [|done]. intros _. split; [done|].
      by apply (proj1 (apply_options_None _ _)) in Happly.
Qed.

(** C9.  [Stop] only cancels the context: calling it again, any number
    of times, changes nothing more; it returns nothing, touches neither
    the failure-count table nor any other field, and does not depend on
    the world (it waits for nothing).  A loop arriving at its [select]
    after [Stop] returns without doing anything. *)
Theorem Stop_idempotent c :
  Stop (Stop c) = Stop c ∧
  (∀ n : nat, Nat.iter (S n) Stop c = Stop c) ∧
  done_closed (ctx (Stop c)) = true ∧
  failureCounts (Stop c) = failureCounts c ∧
  Stop c = mkConsumer (cancel (ctx c)) (callbackFunc c) (client c)
             (topic c) (groupID c) (consumerID c) (failureCounts c)
             (opts c) ∧
  (∀ schedule w, run (true :: schedule) c w = (Some (Stop c), w, [])) ∧
  (∀ stop_called schedule w,
     run (stop_called :: schedule) (Stop c) w = (Some (Stop c), w, [])).
Proof.
  assert (Hidem : ∀ c, Stop (Stop c) = Stop c).
  { intros [[e] ? ? ? ? ? ? ?]. unfold Stop, cancel. cbn. by destruct e. }
  assert (Hdone : ∀ c, done_closed (ctx (Stop c)) = true).
  { intros [[e] ? ? ? ? ? ? ?]. unfold Stop, cancel, done_closed. cbn.
    by destruct e. }
  split; [apply Hidem|]. split.
  { induction n as [|n IH]; [done|].
    change (Nat.iter (S (S n)) Stop c) with (Stop (Nat.iter (S n) Stop c)).
    by rewrite IH. }
  split; [apply Hdone|]. split; [done|]. split; [done|]. split.
  - intros schedule w. cbn [run]. by rewrite Hdone.
  - intros [] schedule w; cbn [run]; by rewrite ?Hidem, Hdone.
Qed.

(** *** The client *)

Lemma XAck_shape (cl : Client) (topic groupID msgID : string) w :
  ∃ err w', XAck (Some cl) topic groupID msgID w = (Some err, w', []).
Proof.
  unfold XAck. case_bool_decide; [by eexists _, _|].
  unfold_M.
  destruct (pool_GetContext (pool cl) w) as [[e|] w1]; [by eexists _, _|].
  destruct (conn_Do_XACK topic groupID msgID w1) as [[reply [e|]] w2];
    cbn; [by eexists _, _|].
  case_bool_decide; by eexists _, _.
Qed.

(** C6, as the code has it.  When the three arguments are not empty, a
    connection is obtained and the XACK command is answered with an
    integer, [XAck] fails exactly when the answer is not 1: so it fails
    when fewer than one record was acknowledged, it succeeds when one
    was, and it fails on any larger count. *)
Theorem XAck_fails_iff_reply_not_one (cl : Client)
  (topic groupID msgID : string) (reply : Z) w w1 w2 :
  topic ≠ "" → groupID ≠ "" → msgID ≠ "" →
  pool_GetContext (pool cl) w = (None, w1) →
  conn_Do_XACK topic groupID msgID w1 = (reply, None, w2) →
  ∃ err,
    XAck (Some cl) topic groupID msgID w = (Some err, conn_Close w2, []) ∧
    (is_nil err = false ↔ reply ≠ 1) ∧
    (is_nil err = true ↔ reply = 1) ∧
    (reply < 1 → err = Some (fmt_Errorf "invalid reply: %d" reply)) ∧
    (1 < reply → err = Some (fmt_Errorf "invalid reply: %d" reply)).
Proof.
  intros Ht Hg Hm Hpool Hdo. unfold XAck.
  rewrite bool_decide_false by tauto.
  unfold_M. rewrite Hpool, Hdo. cbn.
  case_bool_decide as Hr; eexists; (split; [reflexivity|]); cbn.
  - repeat split; intros; first [ done | lia ].
  - assert (reply = 1) by lia. repeat split; intros; first [ done | lia ].
Qed.

(** *** One message, one entry *)

Lemma Deliver_shape (mailbox : @DeadLetterMailbox W) msg w :
  ∃ now err w',
    Deliver mailbox msg w = (Some (now, err), w', []) ∧
    (match mailbox with
     | UserMailbox deliver => leaves_message deliver
     | DeadLetterLogger => True
     end → now = msg).
Proof.
  destruct mailbox as [|deliver]; cbn; unfold_M; [by eexists _, _, _|].
  destruct (deliver msg w) as [[now err] w'] eqn:Hd.
  eexists _, _, _. split; [done|]. intros Hread.
  specialize (Hread msg w). by rewrite Hd in Hread.
Qed.

(** The three ways through the body of [handlerMsg]; [now] is the
    message as the callback leaves it. *)
Lemma handlerMsg_body_cases c msg w :
  ready c →
  ∃ callback cl now err w1,
    callbackFunc c = Some callback ∧ client c = Some cl ∧
    callback msg w = (now, err, w1) ∧
    (callback_reads_only c → now = msg) ∧
    match err with
    | Some _ =>
        handlerMsg_body c msg w =
          (Some (with_failureCounts c
                   (<[now := GoInt.incr (count c now)]> (failureCounts c))),
           w1, [ECallback msg now false])
    | None =>
        ∃ aerr w2,
          XAck (Some cl) (topic c) (groupID c) (MsgID now) w1 =
            (Some aerr, w2, []) ∧
          match aerr with
          | Some e =>
              handlerMsg_body c msg w =
                (Some c,
                 log_ErrorContextFormat
                   "msg ack failed, msg id: %s, err: %v"
                   [arg_string (MsgID now); arg_error e] w2,
                 [ECallback msg now true; EAck (MsgID now) false])
          | None =>
              handlerMsg_body c msg w =
                (Some (with_failureCounts c (delete now (failureCounts c))),
                 w2, [ECallback msg now true; EAck (MsgID now) true])
          end
    end.
Proof.
  intros ([callback Hcb] & [cl Hcl] & _).
  destruct (callback msg w) as [[now err] w1] eqn:Hcall.
  exists callback, cl, now, err, w1. split; [done|]. split; [done|].
  split; [done|]. split.
  { unfold callback_reads_only. rewrite Hcb. intros Hread.
    specialize (Hread msg w). by rewrite Hcall in Hread. }
  unfold handlerMsg_body, count. rewrite Hcb, Hcl.
  destruct err as [e|].
  - unfold_M. by rewrite Hcall.
  - destruct (XAck_shape cl (topic c) (groupID c) (MsgID now) w1)
      as (aerr & w2 & Hack).
    exists aerr, w2. split; [done|].
    unfold_M. rewrite Hcall, Hack. by destruct aerr.
Qed.

(** The three ways through the body of [deliverDeadLetter]; [now] is the
    message as the mailbox leaves it. *)
Lemma deliverDeadLetter_body_cases c msg (failureCnt : Z) w :
  ready c →
  (failureCnt < maxRetryLimit (opts c) ∧
   deliverDeadLetter_body c (msg, failureCnt) w = (Some c, w, [])) ∨
  (maxRetryLimit (opts c) ≤ failureCnt ∧
   ∃ mailbox cl now derr w1 aerr w2 w3,
     deadLetterMailbox (opts c) = Some mailbox ∧ client c = Some cl ∧
     Deliver mailbox msg w = (Some (now, derr), w1, []) ∧
     (mailbox_reads_only c → now = msg) ∧
     XAck (Some cl) (topic c) (groupID c) (MsgID now) w2 =
       (Some aerr, w3, []) ∧
     ∃ w4,
       deliverDeadLetter_body c (msg, failureCnt) w =
         (Some (if is_nil aerr
                then with_failureCounts c (delete now (failureCounts c))
                else c),
          w4,
          [EDeliver msg failureCnt now (is_nil derr);
           EAck (MsgID now) (is_nil aerr)])).
Proof.
  intros (_ & [cl Hcl] & [mailbox Hmb]).
  unfold deliverDeadLetter_body.
  case_bool_decide as Hlim; [left; done|right].
  split; [lia|]. rewrite Hmb, Hcl.
  destruct (Deliver_shape mailbox msg w) as (now & derr & w1 & Hdel & Hread).
  assert (mailbox_reads_only c → now = msg) as Hread'.
  { unfold mailbox_reads_only. rewrite Hmb. intros Hm. apply Hread.
    by destruct mailbox. }
  unfold_M. rewrite Hdel.
  destruct derr as [e|]; cbn.
  - match goal with
    | |- context [XAck ?a ?b ?c ?d ?w] =>
        destruct (XAck_shape cl b c d w) as (aerr & w3 & Hack)
    end.
    rewrite Hack.
    eexists mailbox, cl, now, (Some e), w1, aerr, _, w3.
    repeat split; [done..|]. destruct aerr; by eexists.
  - destruct (XAck_shape cl (topic c) (groupID c) (MsgID now) w1)
      as (aerr & w3 & Hack).
    rewrite Hack.
    eexists mailbox, cl, now, None, w1, aerr, _, w3.
    repeat split; [done..|]. destruct aerr; by eexists.
Qed.

(** *** Sequences of steps *)

Lemma with_failureCounts_same c : with_failureCounts c (failureCounts c) = c.
Proof. by destruct c. Qed.

Lemma frame_refl c : ∃ m, c = with_failureCounts c m.
Proof. exists (failureCounts c). by rewrite with_failureCounts_same. Qed.

Lemma handlerMsg_body_frame c msg w c' w' t :
  handlerMsg_body c msg w = (Some c', w', t) →
  ∃ m, c' = with_failureCounts c m.
Proof.
  unfold handlerMsg_body. destruct (callbackFunc c) as [cb|]; [|done].
  unfold_M. destruct (cb msg w) as [[now [e|]] w1]; cbn.
  - intros [= <- _ _]. by eexists.
  - destruct (XAck _ _ _ _ w1) as [[[[e|]|] w2] t2]; cbn;
      intros Heq; simplify_eq; first [ by eexists | apply frame_refl ].
Qed.

Lemma deliverDeadLetter_body_frame c entry w c' w' t :
  deliverDeadLetter_body c entry w = (Some c', w', t) →
  ∃ m, c' = with_failureCounts c m.
Proof.
  destruct entry as [msg n]. unfold deliverDeadLetter_body.
  case_bool_decide.
  { intros [= <- _ _]. apply frame_refl. }
  destruct (deadLetterMailbox (opts c)) as [mb|]; [|done].
  unfold_M. destruct (Deliver mb msg w) as [[[[now derr]|] w1] t1]; [|done].
  destruct derr; cbn;
    match goal with
    | |- context [XAck ?a ?b ?c ?d ?w] =>
        destruct (XAck a b c d w) as [[[[?|]|] w2] t2]
    end; cbn; intros Heq; simplify_eq;
    first [ by eexists | apply frame_refl ].
Qed.

Lemma steps_frame c h c' : steps c h c' → same_setup c c'.
Proof.
  induction 1 as [c|c h c1 _ IH|c h c1 msg w c2 w2 t _ IH Hb
                   |c h c1 msg n w c2 w2 t _ IH _ Hb].
  - done.
  - done.
  - by apply handlerMsg_body_frame in Hb as [m' ->].
  - by apply deliverDeadLetter_body_frame in Hb as [m' ->].
Qed.

Lemma same_setup_ready c c' : same_setup c c' → ready c → ready c'.
Proof.
  intros (Hcb & Hcl & _ & _ & _ & Ho). unfold ready.
  by rewrite Hcb, Hcl, Ho.
Qed.

Lemma same_setup_reads_only c c' :
  same_setup c c' →
  (callback_reads_only c → callback_reads_only c') ∧
  (mailbox_reads_only c → mailbox_reads_only c').
Proof.
  intros (Hcb & _ & _ & _ & _ & Ho).
  unfold callback_reads_only, mailbox_reads_only. by rewrite Hcb, Ho.
Qed.

Lemma steps_ready c h c' : steps c h c' → ready c → ready c'.
Proof. intros Hs%steps_frame. by apply same_setup_ready. Qed.

Lemma steps_trans c1 h1 c2 h2 c3 :
  steps c1 h1 c2 → steps c2 h2 c3 → steps c1 (h1 ++ h2) c3.
Proof.
  intros H1 H2. induction H2 as [c|c h c' _ IH
                                   |c h c' msg w c'' w'' t _ IH Hb
                                   |c h c' msg n w c'' w'' t _ IH Hin Hb].
  - by rewrite app_nil_r.
  - apply steps_stop. by apply IH.
  - rewrite app_assoc. eapply steps_handle; eauto.
  - rewrite app_assoc. eapply steps_escalate; eauto.
Qed.

Lemma steps_handle_one c msg w c' w' t :
  handlerMsg_body c msg w = (Some c', w', t) → steps c t c'.
Proof.
  intros Hb. change t with ([] ++ t).
  eapply steps_handle; [apply steps_nil|done].
Qed.

Lemma steps_escalate_one c msg n w c' w' t :
  failureCounts c !! msg = Some n →
  deliverDeadLetter_body c (msg, n) w = (Some c', w', t) → steps c t c'.
Proof.
  intros Hin Hb. change t with ([] ++ t).
  eapply steps_escalate; [apply steps_nil|done..].
Qed.

Lemma handlerMsg_body_total c msg w :
  ready c → ∃ c' w' t, handlerMsg_body c msg w = (Some c', w', t).
Proof.
  intros Hr.
  destruct (handlerMsg_body_cases c msg w Hr)
    as (cb & cl & now & [e|] & w1 & _ & _ & _ & _ & H).
  - by eexists _, _, _.
  - destruct H as ([e|] & w2 & _ & H); by eexists _, _, _.
Qed.

Lemma handlerMsg_cons c msg rest w c1 w1 t1 :
  handlerMsg_body c msg w = (Some c1, w1, t1) →
  handlerMsg c (msg :: rest) w =
    (let '(r, w2, t2) := handlerMsg c1 rest w1 in (r, w2, t1 ++ t2)).
Proof. intros Hb. cbn. unfold_M. by rewrite Hb. Qed.

(** [handlerMsg] returns, and is a sequence of steps. *)
Lemma handlerMsg_steps messages c w :
  ready c →
  ∃ c' w' t, handlerMsg c messages w = (Some c', w', t) ∧ steps c t c'.
Proof.
  revert c w. induction messages as [|msg rest IH]; intros c w Hr.
  - eexists _, _, _. split; [done|apply steps_nil].
  - destruct (handlerMsg_body_total c msg w Hr) as (c1 & w1 & t1 & Hb).
    pose proof (steps_handle_one _ _ _ _ _ _ Hb) as Hs1.
    destruct (IH c1 w1 (steps_ready _ _ _ Hs1 Hr)) as (c2 & w2 & t2 & Hh & Hs2).
    rewrite (handlerMsg_cons _ _ _ _ _ _ _ Hb), Hh.
    eexists _, _, _. split; [done|]. by eapply steps_trans.
Qed.

End Properties.

Section Bodies.

Context {W : Type} `{!Outside W}.

Implicit Types (c : @Consumer W) (w : W) (msg : MsgEntity).

(** *** What the two bodies do *)

(** What the body of [handlerMsg] does to the table and to the trace:
    it touches the entry of [now], the message as the callback leaves
    it, and no other. *)
Lemma handlerMsg_body_effect c msg w :
  ready c →
  ∃ c1 w1 t now,
    handlerMsg_body c msg w = (Some c1, w1, t) ∧
    (callback_reads_only c → now = msg) ∧
    (∀ k, k ≠ now → failureCounts c1 !! k = failureCounts c !! k) ∧
    ((t = [ECallback msg now false] ∧
      failureCounts c1 !! now = Some (GoInt.incr (count c now))) ∨
     (∃ acked,
        t = [ECallback msg now true; EAck (MsgID now) acked] ∧
        failureCounts c1 !! now =
          if acked then None else failureCounts c !! now)).
Proof.
  intros Hr.
  destruct (handlerMsg_body_cases c msg w Hr)
    as (cb & cl & now & [e|] & w1 & _ & _ & _ & Hread & H).
  - rewrite H. eexists _, _, _, now. split; [done|]. split; [done|]. cbn.
    split.
    + intros k Hne. by rewrite lookup_insert_ne.
    + left. by rewrite lookup_insert_eq.
  - destruct H as ([e|] & w2 & _ & H); rewrite H;
      eexists _, _, _, now; (split; [done|]); (split; [done|]); cbn.
    + split; [done|]. right. by exists false.
    + split.
      * intros k Hne. by rewrite lookup_delete_ne.
      * right. exists true. by rewrite lookup_delete_eq.
Qed.

(** What the body of [deliverDeadLetter] does to the table and to the
    trace: below the limit nothing; otherwise it touches the entry of
    [now], the message as the mailbox leaves it, and no other. *)
Lemma deliverDeadLetter_body_effect c msg (n : Z) w :
  ready c →
  ∃ c1 w1 t,
    deliverDeadLetter_body c (msg, n) w = (Some c1, w1, t) ∧
    opts c1 = opts c ∧
    ((n < maxRetryLimit (opts c) ∧ t = [] ∧ c1 = c) ∨
     (maxRetryLimit (opts c) ≤ n ∧
      ∃ now delivered acked,
        t = [EDeliver msg n now delivered; EAck (MsgID now) acked] ∧
        (mailbox_reads_only c → now = msg) ∧
        (∀ k, k ≠ now → failureCounts c1 !! k = failureCounts c !! k) ∧
        failureCounts c1 !! now =
          if acked then None else failureCounts c !! now)).
Proof.
  intros Hr.
  destruct (deliverDeadLetter_body_cases c msg n w Hr)
    as [[Hlt Hb]|[Hge (mb & cl & now & derr & w1 & aerr & w2 & w3 & _ & _ & _
                        & Hread & _ & w4 & Hb)]];
    rewrite Hb; eexists _, _, _; (split; [reflexivity|]).
  - split; [done|]. by left.
  - split; [by destruct aerr|]. right. split; [done|].
    exists now, (is_nil derr), (is_nil aerr). split; [done|].
    split; [done|]. split.
    + intros k Hne. destruct aerr; cbn; [done|]. by rewrite lookup_delete_ne.
    + destruct aerr; cbn; [done|]. by rewrite lookup_delete_eq.
Qed.

(** *** Dead-letter escalation *)

(** One stop of the walk of [range]: an entry that is still in the map
    is handed to the body with its count, one that is not is passed. *)
Lemma deliverDeadLetter_range_cons c entry rest w c1 w1 t1 :
  match failureCounts c !! entry.1 with
  | Some failureCnt => deliverDeadLetter_body c (entry.1, failureCnt) w
  | None => (Some c, w, [])
  end = (Some c1, w1, t1) →
  deliverDeadLetter_range c (entry :: rest) w =
    (let '(r, w2, t2) := deliverDeadLetter_range c1 rest w1 in
     (r, w2, t1 ++ t2)).
Proof.
  intros Hb. cbn [deliverDeadLetter_range]. unfold_M.
  destruct (failureCounts c !! entry.1); [by rewrite Hb|].
  injection Hb as <- <- <-.
  by destruct (deliverDeadLetter_range c rest w) as [[r w2] t2].
Qed.

(** The walk returns, and is a sequence of steps. *)
Lemma deliverDeadLetter_range_steps entries c w :
  ready c →
  ∃ c' w' t,
    deliverDeadLetter_range c entries w = (Some c', w', t) ∧ steps c t c'.
Proof.
  revert c w. induction entries as [|[m0 n0] rest IH]; intros c w Hr.
  { eexists _, _, _. split; [done|]. apply steps_nil. }
  assert (∃ c1 w1 t1,
            match failureCounts c !! m0 with
            | Some failureCnt => deliverDeadLetter_body c (m0, failureCnt) w
            | None => (Some c, w, [])
            end = (Some c1, w1, t1) ∧ steps c t1 c1)
    as (c1 & w1 & t1 & Hb & Hs1).
  { destruct (failureCounts c !! m0) as [n|] eqn:Hn.
    - destruct (deliverDeadLetter_body_effect c m0 n w Hr)
        as (c1 & w1 & t1 & Hb & _).
      exists c1, w1, t1. split; [done|]. by eapply steps_escalate_one.
    - eexists _, _, _. split; [done|]. apply steps_nil. }
  destruct (IH c1 w1 (steps_ready _ _ _ Hs1 Hr)) as (c2 & w2 & t2 & Hrange & Hs2).
  rewrite (deliverDeadLetter_range_cons c (m0, n0) rest w c1 w1 t1 Hb), Hrange.
  eexists _, _, _. split; [done|]. by eapply steps_trans.
Qed.

Lemma deliverDeadLetter_steps c w :
  ready c →
  ∃ c' w' t, deliverDeadLetter c w = (Some c', w', t) ∧ steps c t c'.
Proof.
  intros Hr. unfold deliverDeadLetter. unfold_M.
  destruct (deliverDeadLetter_range_steps
              (range_order w (failureCounts c)) c w Hr)
    as (c' & w' & t & Hrange & Hs).
  rewrite Hrange. by eexists _, _, _.
Qed.

(** The walk over a list of entries of the table, no message twice,
    when the mailbox only reads the messages. *)
Lemma deliverDeadLetter_range_spec entries c w :
  ready c → mailbox_reads_only c →
  NoDup entries.*1 →
  (∀ msg n, (msg, n) ∈ entries → failureCounts c !! msg = Some n) →
  ∃ c' w' t,
    deliverDeadLetter_range c entries w = (Some c', w', t) ∧
    (∀ msg, msg ∉ entries.*1 →
       failureCounts c' !! msg = failureCounts c !! msg ∧
       ∀ n now ok, EDeliver msg n now ok ∉ t) ∧
    (∀ msg n, (msg, n) ∈ entries →
       (n < maxRetryLimit (opts c) →
        failureCounts c' !! msg = Some n ∧
        ∀ n' now ok, EDeliver msg n' now ok ∉ t) ∧
       (maxRetryLimit (opts c) ≤ n →
        ∃ pre delivered acked post,
          t = pre ++ [EDeliver msg n msg delivered; EAck (MsgID msg) acked]
                  ++ post ∧
          failureCounts c' !! msg = if acked then None else Some n)).
Proof.
  revert c w. induction entries as [|[m0 n0] rest IH];
    intros c w Hr Hro Hnd Hin.
  { eexists _, _, _. split; [done|]. split.
    - intros msg _. split; [done|]. intros n now ok H. by apply elem_of_nil in H.
    - intros msg n H. by apply elem_of_nil in H. }
  cbn in Hnd. apply NoDup_cons in Hnd as [Hm0 Hnd].
  assert (Hin0 : failureCounts c !! m0 = Some n0) by (apply Hin; left).
  destruct (deliverDeadLetter_body_effect c m0 n0 w Hr)
    as (c1 & w1 & t1 & Hb & Hopts & Hself).
  pose proof (steps_escalate_one _ _ _ _ _ _ _ Hin0 Hb) as Hs1.
  assert (Hother : ∀ k, k ≠ m0 →
            failureCounts c1 !! k = failureCounts c !! k ∧
            ∀ n now ok, EDeliver k n now ok ∉ t1).
  { intros k Hne.
    destruct Hself as [(_ & -> & ->)|(_ & now & d & a & -> & Hnow & Hk & _)].
    - split; [done|]. intros n now ok H. by apply elem_of_nil in H.
    - rewrite (Hnow Hro) in Hk. split; [by apply Hk|].
      intros n now' ok H. apply elem_of_cons in H as [[=]|H]; [done|].
      apply elem_of_cons in H as [[=]|H]. by apply elem_of_nil in H. }
  assert (Hin1 : ∀ msg n, (msg, n) ∈ rest →
                          failureCounts c1 !! msg = Some n).
  { intros msg n Hmem.
    assert (msg ≠ m0) as Hne.
    { intros ->. apply Hm0. apply list_elem_of_fmap. by exists (m0, n). }
    destruct (Hother msg Hne) as [-> _]. apply Hin. by right. }
  assert (mailbox_reads_only c1) as Hro1
      by (by apply (same_setup_reads_only c c1 (steps_frame _ _ _ Hs1))).
  destruct (IH c1 w1 (steps_ready _ _ _ Hs1 Hr) Hro1 Hnd Hin1)
    as (c2 & w2 & t2 & Hrange & Hout & Hmem).
  rewrite (deliverDeadLetter_range_cons c (m0, n0) rest w c1 w1 t1);
    [|cbn; by rewrite Hin0].
  rewrite Hrange.
  eexists _, _, _. split; [reflexivity|]. split.
  - intros msg Hnot. cbn in Hnot. apply not_elem_of_cons in Hnot as [Hne Hnot].
    destruct (Hout msg Hnot) as [-> Hno2].
    destruct (Hother msg Hne) as [-> Hno1].
    split; [done|].
    intros n now ok [?|?]%elem_of_app; [by eapply Hno1|by eapply Hno2].
  - intros msg n [[= -> ->]|Hrest]%elem_of_cons.
    + destruct (Hout m0 Hm0) as [Heq Hno2]. rewrite Hopts in *.
      destruct Hself as [(Hlt & -> & ->)|(Hge & now & d & a & -> & Hnow & _
                                          & Hlook)].
      * split; [|lia]. intros _. split; [congruence|]. done.
      * rewrite (Hnow Hro) in *. split; [lia|]. intros _.
        exists [], d, a, t2. split; [done|].
        rewrite Heq, Hlook, Hin0. done.
    + assert (msg ≠ m0) as Hne.
      { intros ->. apply Hm0. apply list_elem_of_fmap. by exists (m0, n). }
      destruct (Hother msg Hne) as [_ Hno1].
      destruct (Hmem msg n Hrest) as [Hlow Hhigh]. rewrite Hopts in *.
      split.
      * intros Hlt. destruct (Hlow Hlt) as [-> Hno2]. split; [done|].
        intros n' now ok [?|?]%elem_of_app; [by eapply Hno1|by eapply Hno2].
      * intros Hge. destruct (Hhigh Hge) as (pre & d & a & post & -> & ->).
        exists (t1 ++ pre), d, a, post. by rewrite <- app_assoc.
Qed.

(** What [deliverDeadLetter] does to each entry of the table, when the
    mailbox only reads the messages. *)
Lemma deliverDeadLetter_effect c w :
  ready c → mailbox_reads_only c →
  ∃ c' w' t,
    deliverDeadLetter c w = (Some c', w', t) ∧
    (∀ msg n, failureCounts c !! msg = Some n →
       (n < maxRetryLimit (opts c) →
        failureCounts c' !! msg = Some n ∧
        ∀ n' now ok, EDeliver msg n' now ok ∉ t) ∧
       (maxRetryLimit (opts c) ≤ n →
        ∃ pre delivered acked post,
          t = pre ++ [EDeliver msg n msg delivered; EAck (MsgID msg) acked]
                  ++ post ∧
          failureCounts c' !! msg = if acked then None else Some n)) ∧
    (∀ msg, failureCounts c !! msg = None →
       failureCounts c' !! msg = None ∧
       ∀ n now ok, EDeliver msg n now ok ∉ t).
Proof.
  intros Hr Hro. unfold deliverDeadLetter. unfold_M.
  destruct (deliverDeadLetter_range_spec
              (range_order w (failureCounts c)) c w Hr Hro)
    as (c' & w' & t & Hrange & Hout & Hin).
  - rewrite (range_order_perm w). apply NoDup_fst_map_to_list.
  - intros msg n Hmem. rewrite (range_order_perm w) in Hmem.
    by apply elem_of_map_to_list.
  - rewrite Hrange. eexists _, _, _. split; [by rewrite app_nil_l|].
    split.
    + intros msg n Hlook. apply Hin. rewrite (range_order_perm w).
      by apply elem_of_map_to_list.
    + intros msg Hnone.
      assert (msg ∉ (range_order w (failureCounts c)).*1) as Hnot.
      { rewrite (range_order_perm w).
        intros ((msg' & n) & -> & Hmem)%list_elem_of_fmap.
        apply elem_of_map_to_list in Hmem. cbn in Hnone. congruence. }
      destruct (Hout msg Hnot) as [-> Hno]. done.
Qed.

(** C1, as the code has it.  When the mailbox only reads the messages
    it is handed, [deliverDeadLetter] returns, and for every entry of
    the failure-count table: if its count is below [maxRetryLimit] the
    entry is skipped (it stays as it is and the mailbox is not called
    for it); otherwise the message is delivered to the mailbox and then,
    whether the delivery succeeded or not, acknowledged, and the entry
    is removed when the acknowledgment succeeded and left in place when
    it failed.  No entry is created.  In the body of the loop, whatever
    the mailbox does, the acknowledgment is attempted whatever [Deliver]
    returned, for the id of the message as the mailbox left it, and it
    is the entry of that message that a successful acknowledgment
    removes. *)
Theorem deliverDeadLetter_escalates c w :
  ready c →
  (mailbox_reads_only c →
   ∃ c' w' t,
     deliverDeadLetter c w = (Some c', w', t) ∧
     (∀ msg n, failureCounts c !! msg = Some n →
        (n < maxRetryLimit (opts c) →
         failureCounts c' !! msg = Some n ∧
         ∀ n' now ok, EDeliver msg n' now ok ∉ t) ∧
        (maxRetryLimit (opts c) ≤ n →
         ∃ pre delivered acked post,
           t = pre ++ [EDeliver msg n msg delivered; EAck (MsgID msg) acked]
                   ++ post ∧
           failureCounts c' !! msg = if acked then None else Some n)) ∧
     (∀ msg, failureCounts c !! msg = None →
        failureCounts c' !! msg = None ∧
        ∀ n now ok, EDeliver msg n now ok ∉ t)) ∧
  (∀ msg n w0,
     maxRetryLimit (opts c) ≤ n →
     ∃ mailbox cl now derr w1 aerr w1' w1'' c1 w2,
       deadLetterMailbox (opts c) = Some mailbox ∧ client c = Some cl ∧
       Deliver mailbox msg w0 = (Some (now, derr), w1, []) ∧
       (mailbox_reads_only c → now = msg) ∧
       XAck (Some cl) (topic c) (groupID c) (MsgID now) w1' =
         (Some aerr, w1'', []) ∧
       deliverDeadLetter_body c (msg, n) w0 =
         (Some c1, w2,
          [EDeliver msg n now (is_nil derr);
           EAck (MsgID now) (is_nil aerr)]) ∧
       failureCounts c1 =
         if is_nil aerr then delete now (failureCounts c)
         else failureCounts c).
Proof.
  intros Hr. split; [by apply deliverDeadLetter_effect|].
  intros msg n w0 Hge.
  destruct (deliverDeadLetter_body_cases c msg n w0 Hr)
    as [[Hlt _]|[_ (mb & cl & now & derr & w1 & aerr & w2 & w3 & Hmb & Hcl
                    & Hdel & Hread & Hack & w4 & Hb)]]; [lia|].
  exists mb, cl, now, derr, w1, aerr, w2, w3. eexists _, _.
  split; [done|]. split; [done|]. split; [done|]. split; [done|].
  split; [done|]. split; [done|]. by destruct aerr.
Qed.

(** *** Message handling *)

Lemma handlerMsg_app l1 l2 c w :
  handlerMsg c (l1 ++ l2) w =
    match handlerMsg c l1 w with
    | (Some c1, w1, t1) =>
        let '(r, w2, t2) := handlerMsg c1 l2 w1 in (r, w2, t1 ++ t2)
    | (None, w1, t1) => (None, w1, t1)
    end.
Proof.
  revert c w. induction l1 as [|msg l1 IH]; intros c w.
  - cbn. unfold_M. by destruct (handlerMsg c l2 w) as [[r w2] t2].
  - cbn. unfold_M.
    destruct (handlerMsg_body c msg w) as [[[c1|] w1] t1]; [|done].
    rewrite IH.
    destruct (handlerMsg c1 l1 w1) as [[[c2|] w2] t2]; [|done].
    destruct (handlerMsg c2 l2 w2) as [[r w3] t3].
    by rewrite app_assoc.
Qed.

(** C2, as the code has it.  When the callback only reads the messages
    it is handed, [handlerMsg] returns, and for every message of the
    batch, at the state in which the loop reaches it: when the callback
    fails, the count of the message becomes its count plus one (Go's
    [++]: the sum as long as the count is not the largest integer) and
    no acknowledgment is attempted; when the callback succeeds an
    acknowledgment is attempted, and then the table is left as it is
    when the acknowledgment fails and loses the entry of the message
    when it succeeds.  The entries of the other messages are not
    touched.  Whatever the callback does, the body of the loop does the
    same with the message as the callback left it: it is the count of
    that message that a failure increments, its id that is
    acknowledged after a success, and its entry that a successful
    acknowledgment removes; no other entry is touched. *)
Theorem handlerMsg_each_message c pre msg post w :
  ready c →
  (callback_reads_only c →
  ∃ callback cl c1 w1 t1 c2 w2 t2 c3 w3 t3,
    callbackFunc c = Some callback ∧ client c = Some cl ∧
    handlerMsg c pre w = (Some c1, w1, t1) ∧
    handlerMsg_body c1 msg w1 = (Some c2, w2, t2) ∧
    handlerMsg c2 post w2 = (Some c3, w3, t3) ∧
    handlerMsg c (pre ++ msg :: post) w = (Some c3, w3, t1 ++ t2 ++ t3) ∧
    (∀ msg', msg' ≠ msg →
       failureCounts c2 !! msg' = failureCounts c1 !! msg') ∧
    match callback msg w1 with
    | (_, Some _, _) =>
        t2 = [ECallback msg msg false] ∧
        failureCounts c2 !! msg = Some (GoInt.incr (count c1 msg)) ∧
        (GoInt.min_int ≤ count c1 msg < GoInt.max_int →
         failureCounts c2 !! msg = Some (count c1 msg + 1))
    | (_, None, w1') =>
        match XAck (Some cl) (topic c) (groupID c) (MsgID msg) w1' with
        | (Some (Some _), _, _) =>
            t2 = [ECallback msg msg true; EAck (MsgID msg) false] ∧
            failureCounts c2 = failureCounts c1
        | (Some None, _, _) =>
            t2 = [ECallback msg msg true; EAck (MsgID msg) true] ∧
            failureCounts c2 = delete msg (failureCounts c1)
        | (None, _, _) => False
        end
    end) ∧
  (∀ w1, ∃ c2 w2 t2 now,
     handlerMsg_body c msg w1 = (Some c2, w2, t2) ∧
     (∀ k, k ≠ now → failureCounts c2 !! k = failureCounts c !! k) ∧
     ((t2 = [ECallback msg now false] ∧
       failureCounts c2 !! now = Some (GoInt.incr (count c now))) ∨
      (∃ acked,
         t2 = [ECallback msg now true; EAck (MsgID now) acked] ∧
         failureCounts c2 !! now =
           if acked then None else failureCounts c !! now))).
Proof.
  intros Hr. split.
  2: { intros w1.
       destruct (handlerMsg_body_effect c msg w1 Hr)
         as (c2 & w2 & t2 & now & Hb & _ & Hother & Hself).
       by exists c2, w2, t2, now. }
  intros Hro.
  destruct (handlerMsg_steps pre c w Hr) as (c1 & w1 & t1 & Hpre & Hs1).
  pose proof (steps_ready _ _ _ Hs1 Hr) as Hr1.
  pose proof (proj1 (same_setup_reads_only c c1 (steps_frame _ _ _ Hs1)) Hro)
    as Hro1.
  destruct (steps_frame _ _ _ Hs1) as (Hcb1 & Hcl1 & Ht & Hg & _).
  destruct (handlerMsg_body_cases c1 msg w1 Hr1)
    as (callback & cl & now & err & w1' & Hcb & Hcl & Hcall & Hnow & Hcase).
  rewrite (Hnow Hro1) in *. clear Hnow.
  destruct (handlerMsg_body_total c1 msg w1 Hr1) as (c2 & w2 & t2 & Hb).
  pose proof (steps_handle_one _ _ _ _ _ _ Hb) as Hs2.
  destruct (handlerMsg_steps post c2 w2 (steps_ready _ _ _ Hs2 Hr1))
    as (c3 & w3 & t3 & Hpost & _).
  exists callback, cl, c1, w1, t1, c2, w2, t2, c3, w3, t3.
  rewrite Hcb1 in Hcb. rewrite Hcl1 in Hcl.
  split; [done|]. split; [done|]. split; [done|]. split; [done|].
  split; [done|]. split.
  { rewrite handlerMsg_app, Hpre.
    rewrite (handlerMsg_cons _ _ _ _ _ _ _ Hb), Hpost. done. }
  rewrite Hcall.
  rewrite <- Ht, <- Hg.
  destruct err as [e|].
  - rewrite Hcase in Hb. injection Hb as <- <- <-. cbn.
    split; [|split; [done|split]].
    + intros msg' Hne. by rewrite lookup_insert_ne.
    + by rewrite lookup_insert_eq.
    + intros Hrange. rewrite lookup_insert_eq.
      by rewrite GoInt_incr_small.
  - destruct Hcase as (aerr & w2' & Hack & Hcase). rewrite Hack.
    destruct aerr as [e|]; rewrite Hcase in Hb; injection Hb as <- <- <-.
    + done.
    + cbn. split; [|done]. intros msg' Hne. by rewrite lookup_delete_ne.
Qed.

End Bodies.

Section Loop.

Context {W : Type} `{!Outside W}.

Implicit Types (c : @Consumer W) (w : W) (msg : MsgEntity).

(** *** The loop *)

Lemma bind_Some {A B} (m : M A) (k : A → M B) w a w1 t1 :
  m w = (Some a, w1, t1) →
  (m ≫= k) w = (let '(r, w2, t2) := k a w1 in (r, w2, t1 ++ t2)).
Proof. intros Hm. unfold_M. by rewrite Hm. Qed.

Lemma xReadGroup_shape (cl : Client) (groupID consumerID topic : string)
  (timeout : Z) (pending : bool) w :
  ∃ msgs err w',
    xReadGroup (Some cl) groupID consumerID topic timeout pending w =
      (Some (msgs, err), w', []).
Proof.
  unfold xReadGroup. case_bool_decide; [by eexists _, _, _|].
  unfold_M.
  destruct (xReadGroup_reply _ _ _ _ _ _ w) as [[msgs err] w'].
  by eexists _, _, _.
Qed.

Lemma receive_shape c w :
  ready c → ∃ msgs err w', receive c w = (Some (msgs, err), w', []).
Proof.
  intros (_ & [cl Hcl] & _). unfold receive, XReadGroupNewMsg.
  rewrite Hcl. unfold_M.
  destruct (xReadGroup_shape cl (groupID c) (consumerID c) (topic c)
              (time.Milliseconds (receiveTimeout (opts c))) false w)
    as (msgs & err & w' & ->).
  destruct err as [e|]; [|by eexists _, _, _].
  destruct (negb (errors_Is e ErrNoMsg)); by eexists _, _, _.
Qed.

Lemma receivePending_shape c w :
  ready c → ∃ msgs err w', receivePending c w = (Some (msgs, err), w', []).
Proof.
  intros (_ & [cl Hcl] & _). unfold receivePending, XReadGroupOldMsg.
  rewrite Hcl. unfold_M.
  destruct (xReadGroup_shape cl (groupID c) (consumerID c) (topic c)
              0 true w)
    as (msgs & err & w' & ->).
  destruct err as [e|]; [|by eexists _, _, _].
  destruct (negb (errors_Is e ErrNoMsg)); by eexists _, _, _.
Qed.

(** One turn of the loop returns, and is a sequence of steps. *)
Lemma run_iteration_steps c w :
  ready c →
  ∃ c' w' t, run_iteration c w = (Some c', w', t) ∧ steps c t c'.
Proof.
  intros Hr. unfold run_iteration.
  destruct (receive_shape c w Hr) as (msgs & err & w1 & Hrecv).
  rewrite (bind_Some _ _ _ _ _ _ Hrecv).
  destruct err as [e|].
  { eexists _, _, _. split; [done|]. apply steps_nil. }
  destruct (handlerMsg_steps msgs c w1 Hr) as (c2 & w2 & t2 & Hh & Hs2).
  rewrite (bind_Some _ _ _ _ _ _ Hh).
  pose proof (steps_ready _ _ _ Hs2 Hr) as Hr2.
  destruct (deliverDeadLetter_steps c2 w2 Hr2) as (c3 & w3 & t3 & Hd & Hs3).
  rewrite (bind_Some _ _ _ _ _ _ Hd).
  pose proof (steps_ready _ _ _ Hs3 Hr2) as Hr3.
  destruct (receivePending_shape c3 w3 Hr3) as (pend & err & w4 & Hpend).
  rewrite (bind_Some _ _ _ _ _ _ Hpend).
  destruct err as [e|].
  { eexists _, _, _. split; [done|]. cbn. rewrite !app_nil_r.
    by eapply steps_trans. }
  destruct (handlerMsg_steps pend c3 w4 Hr3) as (c5 & w5 & t5 & -> & Hs5).
  eexists _, _, _. split; [done|]. cbn.
  eapply steps_trans; [done|]. by eapply steps_trans.
Qed.

(** Whatever the schedule, [run] returns, and is a sequence of steps. *)
Lemma run_steps schedule c w :
  ready c →
  ∃ c' w' t, run schedule c w = (Some c', w', t) ∧ steps c t c'.
Proof.
  revert c w. induction schedule as [|stop_called later IH]; intros c w Hr.
  { eexists _, _, _. split; [done|]. apply steps_nil. }
  cbn [run].
  set (c0 := if stop_called then Stop c else c).
  assert (steps c [] c0) as Hs0.
  { subst c0. destruct stop_called; [apply steps_stop|]; apply steps_nil. }
  pose proof (steps_ready _ _ _ Hs0 Hr) as Hr0.
  destruct (done_closed (ctx c0)); [by eexists _, _, _|].
  destruct (run_iteration_steps c0 w Hr0) as (c1 & w1 & t1 & Hit & Hs1).
  destruct (IH c1 w1 (steps_ready _ _ _ Hs1 Hr0)) as (c2 & w2 & t2 & Hrun & Hs2).
  rewrite (bind_Some _ _ _ _ _ _ Hit), Hrun.
  eexists _, _, _. split; [done|].
  change (t1 ++ t2) with ([] ++ (t1 ++ t2)).
  eapply steps_trans; [done|]. by eapply steps_trans.
Qed.

(** *** Acknowledgments in the trace *)

Lemma acks_allowed_app escalation prev h t :
  acks_allowed escalation prev h = true →
  (∀ q, acks_allowed escalation q t = true) →
  acks_allowed escalation prev (h ++ t) = true.
Proof.
  revert prev. induction h as [|e h IH]; intros prev Hh Ht; [apply Ht|].
  cbn in *. apply andb_true_iff in Hh as [He Hh].
  apply andb_true_iff. split; [done|]. by apply IH.
Qed.

Lemma acks_allowed_weaken limit prev t :
  acks_allowed None prev t = true → acks_allowed (Some limit) prev t = true.
Proof.
  revert prev. induction t as [|e t IH]; intros prev; [done|].
  cbn. intros [He Ht]%andb_true_iff. apply andb_true_iff.
  split; [|by apply IH].
  destruct e as [| |msgID ok]; try done.
  destruct prev as [[m a [] | m n a d | ]|]; done.
Qed.

(** What the boolean test says: the event just before an
    acknowledgment allows it. *)
Lemma acks_allowed_spec escalation t :
  acks_allowed escalation None t = true →
  ∀ pre msgID ok post,
    t = pre ++ EAck msgID ok :: post →
    allows_ack escalation (last pre) msgID = true.
Proof.
  intros Ht pre msgID ok post ->.
  assert (∀ prev,
            acks_allowed escalation prev (pre ++ EAck msgID ok :: post)
            = true →
            allows_ack escalation
              (match last pre with Some e => Some e | None => prev end)
              msgID = true) as Hgen.
  { clear Ht. induction pre as [|e pre IH]; intros prev.
    - cbn. by intros [? _]%andb_true_iff.
    - cbn [app acks_allowed]. intros [_ H]%andb_true_iff.
      specialize (IH _ H). rewrite last_cons.
      by destruct (last pre). }
  specialize (Hgen None Ht). by destruct (last pre).
Qed.

Lemma handlerMsg_body_acks c msg w c' w' t :
  ready c →
  handlerMsg_body c msg w = (Some c', w', t) →
  ∀ q, acks_allowed None q t = true.
Proof.
  intros Hr Hb q.
  destruct (handlerMsg_body_cases c msg w Hr)
    as (cb & cl & now & [e|] & w1 & _ & _ & _ & _ & H).
  - rewrite H in Hb. by injection Hb as <- <- <-.
  - destruct H as ([e|] & w2 & _ & H); rewrite H in Hb;
      injection Hb as <- <- <-; cbn; by rewrite bool_decide_true.
Qed.

Lemma deliverDeadLetter_body_acks c msg n w c' w' t :
  ready c →
  deliverDeadLetter_body c (msg, n) w = (Some c', w', t) →
  ∀ q, acks_allowed (Some (maxRetryLimit (opts c))) q t = true.
Proof.
  intros Hr Hb q.
  destruct (deliverDeadLetter_body_cases c msg n w Hr)
    as [[_ H]|[Hge (mb & cl & now & derr & w1 & aerr & w2 & w3 & _ & _ & _ & _
                  & _ & w4 & H)]];
    rewrite H in Hb; injection Hb as <- <- <-; [done|].
  cbn. by rewrite !bool_decide_true.
Qed.

Lemma steps_acks c h c' :
  steps c h c' → ready c →
  acks_allowed (Some (maxRetryLimit (opts c))) None h = true.
Proof.
  induction 1 as [c|c h c1 _ IH|c h c1 msg w c2 w2 t Hs IH Hb
                   |c h c1 msg n w c2 w2 t Hs IH _ Hb]; intros Hr.
  - done.
  - by apply IH.
  - apply acks_allowed_app; [by apply IH|]. intros q.
    apply acks_allowed_weaken.
    eapply handlerMsg_body_acks; [|done]. by eapply steps_ready.
  - apply acks_allowed_app; [by apply IH|].
    destruct (steps_frame _ _ _ Hs) as (_ & _ & _ & _ & _ & <-).
    eapply deliverDeadLetter_body_acks; [|done]. by eapply steps_ready.
Qed.

Lemma handlerMsg_acks messages c w c' w' t :
  ready c →
  handlerMsg c messages w = (Some c', w', t) →
  ∀ q, acks_allowed None q t = true.
Proof.
  revert c w c' w' t.
  induction messages as [|msg rest IH]; intros c w c' w' t Hr Hh q.
  { by injection Hh as <- <- <-. }
  destruct (handlerMsg_body_total c msg w Hr) as (c1 & w1 & t1 & Hb).
  rewrite (handlerMsg_cons _ _ _ _ _ _ _ Hb) in Hh.
  destruct (handlerMsg c1 rest w1) as [[r w2] t2] eqn:Hrest.
  injection Hh as -> <- <-.
  apply acks_allowed_app.
  - by eapply handlerMsg_body_acks.
  - eapply IH; [|done].
    eapply steps_ready; [by eapply steps_handle_one|done].
Qed.

(** Where an event of a trace made of two parts lies. *)
Lemma app_eq_cons_inv {A} (h t pre : list A) (e : A) (post : list A) :
  h ++ t = pre ++ e :: post →
  (∃ post', h = pre ++ e :: post' ∧ post = post' ++ t) ∨
  (∃ pre', pre = h ++ pre' ∧ t = pre' ++ e :: post).
Proof.
  revert pre. induction h as [|x h IH]; intros pre Heq.
  { right. by exists pre. }
  destruct pre as [|y pre]; cbn in Heq; injection Heq as -> Heq.
  - left. by exists h.
  - destruct (IH pre Heq) as [(post' & -> & ->)|(pre' & -> & ->)].
    + left. by exists post'.
    + right. by exists pre'.
Qed.

(** A delivery in the trace is that of an entry that was in the table
    at that moment, with the count recorded, at or above the limit. *)
Lemma steps_delivery c h c' :
  steps c h c' → ready c →
  ∀ pre msg n now delivered post,
    h = pre ++ EDeliver msg n now delivered :: post →
    maxRetryLimit (opts c) ≤ n ∧
    ∃ c1, steps c pre c1 ∧ failureCounts c1 !! msg = Some n.
Proof.
  induction 1 as [c|c h c1 _ IH|c h c1 m0 w c2 w2 t Hs IH Hb
                   |c h c1 m0 n0 w c2 w2 t Hs IH Hin Hb];
    intros Hr pre msg n now d post Heq.
  - by destruct pre.
  - by eapply IH.
  - apply app_eq_cons_inv in Heq as [(post' & -> & _)|(pre' & _ & ->)];
      [by eapply IH|].
    destruct (handlerMsg_body_effect c1 m0 w (steps_ready _ _ _ Hs Hr))
      as (c2' & w2' & t' & now' & Hb' & _ & _ & Hself).
    rewrite Hb in Hb'. injection Hb' as _ _ Ht.
    assert (EDeliver msg n now d ∈ t') as Hmem.
    { rewrite <- Ht. apply elem_of_app. right. left. }
    destruct Hself as [[-> _]|(a & -> & _)].
    + apply elem_of_cons in Hmem as [[=]|Hmem]. by apply elem_of_nil in Hmem.
    + apply elem_of_cons in Hmem as [[=]|Hmem].
      apply elem_of_cons in Hmem as [[=]|Hmem]. by apply elem_of_nil in Hmem.
  - apply app_eq_cons_inv in Heq as [(post' & -> & _)|(pre' & -> & Ht)];
      [by eapply IH|].
    destruct (deliverDeadLetter_body_effect c1 m0 n0 w
                (steps_ready _ _ _ Hs Hr))
      as (c2' & w2' & t' & Hb' & _ & Hself).
    rewrite Hb in Hb'. injection Hb' as _ _ Ht'. subst t'.
    destruct (steps_frame _ _ _ Hs) as (_ & _ & _ & _ & _ & Hopts).
    destruct Hself as [(_ & Hnil & _)|(Hge & now' & d' & a & Hdel & _)].
    + rewrite Hnil in Ht. by destruct pre'.
    + rewrite Hopts in Hge. rewrite Hdel in Ht.
      destruct pre' as [|x [|y [|z pre']]]; cbn in Ht; simplify_eq.
      rewrite app_nil_r. split; [lia|]. by exists c1.
Qed.

(** Functions that only read their message leave, in the trace, the
    message they were handed. *)
Lemma steps_unwritten c h c' :
  steps c h c' → ready c →
  (callback_reads_only c →
   ∀ msg now ok, ECallback msg now ok ∈ h → now = msg) ∧
  (mailbox_reads_only c →
   ∀ msg n now ok, EDeliver msg n now ok ∈ h → now = msg).
Proof.
  induction 1 as [c|c h c1 _ IH|c h c1 m0 w c2 w2 t Hs IH Hb
                   |c h c1 m0 n0 w c2 w2 t Hs IH Hin Hb];
    intros Hr.
  - split; intros _ *; intros H; by apply elem_of_nil in H.
  - by apply IH.
  - destruct (IH Hr) as [IHc IHm].
    destruct (handlerMsg_body_effect c1 m0 w (steps_ready _ _ _ Hs Hr))
      as (c2' & w2' & t' & now' & Hb' & Hnow & _ & Hself).
    rewrite Hb in Hb'. injection Hb' as _ _ ->.
    destruct (same_setup_reads_only c c1 (steps_frame _ _ _ Hs)) as [Hc1 _].
    split.
    + intros Hro msg now ok [Hmem|Hmem]%elem_of_app; [by eapply IHc|].
      specialize (Hnow (Hc1 Hro)).
      destruct Hself as [[-> _]|(a & -> & _)].
      * apply elem_of_cons in Hmem as [[=]|Hmem]; [congruence|].
        by apply elem_of_nil in Hmem.
      * apply elem_of_cons in Hmem as [[=]|Hmem]; [congruence|].
        apply elem_of_cons in Hmem as [[=]|Hmem].
        by apply elem_of_nil in Hmem.
    + intros Hro msg n now ok [Hmem|Hmem]%elem_of_app; [by eapply IHm|].
      destruct Hself as [[-> _]|(a & -> & _)].
      * apply elem_of_cons in Hmem as [[=]|Hmem].
        by apply elem_of_nil in Hmem.
      * apply elem_of_cons in Hmem as [[=]|Hmem].
        apply elem_of_cons in Hmem as [[=]|Hmem].
        by apply elem_of_nil in Hmem.
  - destruct (IH Hr) as [IHc IHm].
    destruct (deliverDeadLetter_body_effect c1 m0 n0 w
                (steps_ready _ _ _ Hs Hr))
      as (c2' & w2' & t' & Hb' & _ & Hself).
    rewrite Hb in Hb'. injection Hb' as _ _ ->.
    destruct (same_setup_reads_only c c1 (steps_frame _ _ _ Hs)) as [_ Hm1].
    split.
    + intros Hro msg now ok [Hmem|Hmem]%elem_of_app; [by eapply IHc|].
      destruct Hself as [(_ & -> & _)|(_ & now' & d' & a & -> & _)].
      * by apply elem_of_nil in Hmem.
      * apply elem_of_cons in Hmem as [[=]|Hmem].
        apply elem_of_cons in Hmem as [[=]|Hmem].
        by apply elem_of_nil in Hmem.
    + intros Hro msg n now ok [Hmem|Hmem]%elem_of_app; [by eapply IHm|].
      destruct Hself as [(_ & -> & _)|(_ & now' & d' & a & -> & Hnow & _)].
      * by apply elem_of_nil in Hmem.
      * specialize (Hnow (Hm1 Hro)).
        apply elem_of_cons in Hmem as [[=]|Hmem]; [congruence|].
        apply elem_of_cons in Hmem as [[=]|Hmem].
        by apply elem_of_nil in Hmem.
Qed.

(** C3, as the code has it.  Whatever the schedule, the loop returns
    and every acknowledgment in its trace comes right after the event
    that allows it: a successful callback that left a message with that
    id or, in dead-letter escalation, a delivery to the mailbox that
    left a message with that id, whether or not a callback ever
    succeeded on it.  Every delivery in the trace is that of a message
    that had, at that moment, an entry in the failure-count table with
    the count recorded in the event, and that count had reached
    [maxRetryLimit].  When the callback, or the mailbox, only reads the
    messages, the message it leaves is the message it was handed.  In
    [handlerMsg] alone, every acknowledgment comes right after a
    successful callback that left a message with that id. *)
Theorem acks_follow_success_or_delivery schedule c w :
  ready c →
  ∃ c' w' t,
    run schedule c w = (Some c', w', t) ∧
    (∀ pre msgID ok post,
       t = pre ++ EAck msgID ok :: post →
       ∃ pre' msg now,
         MsgID now = msgID ∧
         (pre = pre' ++ [ECallback msg now true] ∨
          ∃ failureCnt delivered,
            pre = pre' ++ [EDeliver msg failureCnt now delivered] ∧
            maxRetryLimit (opts c) ≤ failureCnt ∧
            ∃ c1, steps c pre' c1 ∧
                  failureCounts c1 !! msg = Some failureCnt)) ∧
    (∀ pre msg failureCnt now delivered post,
       t = pre ++ EDeliver msg failureCnt now delivered :: post →
       maxRetryLimit (opts c) ≤ failureCnt ∧
       ∃ c1, steps c pre c1 ∧ failureCounts c1 !! msg = Some failureCnt) ∧
    (callback_reads_only c →
     ∀ msg now ok, ECallback msg now ok ∈ t → now = msg) ∧
    (mailbox_reads_only c →
     ∀ msg failureCnt now ok,
       EDeliver msg failureCnt now ok ∈ t → now = msg) ∧
    (∀ messages w1 c1 w2 t1,
       handlerMsg c messages w1 = (Some c1, w2, t1) →
       ∀ pre msgID ok post,
         t1 = pre ++ EAck msgID ok :: post →
         ∃ pre' msg now,
           MsgID now = msgID ∧ pre = pre' ++ [ECallback msg now true]).
Proof.
  intros Hr.
  destruct (run_steps schedule c w Hr) as (c' & w' & t & Hrun & Hs).
  destruct (steps_unwritten _ _ _ Hs Hr) as [Hunc Hunm].
  exists c', w', t. split; [done|].
  split; [|split; [|split; [done|split; [done|]]]].
  - intros pre msgID ok post Ht.
    pose proof (acks_allowed_spec _ _ (steps_acks _ _ _ Hs Hr)
                  pre msgID ok post Ht) as Hallow.
    destruct (last pre) as [e|] eqn:Hlast; [|done].
    apply last_Some in Hlast as [pre' ->].
    destruct e as [msg now [] | msg n now d | ]; cbn in Hallow; try done.
    + apply bool_decide_eq_true in Hallow. exists pre', msg, now. by auto.
    + apply andb_true_iff in Hallow as [_ Hid].
      apply bool_decide_eq_true in Hid.
      exists pre', msg, now. split; [done|]. right. exists n, d.
      split; [done|].
      eapply (steps_delivery _ _ _ Hs Hr pre' msg n now d).
      rewrite Ht. by rewrite <- app_assoc.
  - intros pre msg n now d post Ht.
    by eapply (steps_delivery _ _ _ Hs Hr).
  - intros messages w1 c1 w2 t1 Hh pre msgID ok post Ht.
    pose proof (acks_allowed_spec _ _
                  (handlerMsg_acks _ _ _ _ _ _ Hr Hh None)
                  pre msgID ok post Ht) as Hallow.
    destruct (last pre) as [e|] eqn:Hlast; [|done].
    apply last_Some in Hlast as [pre' ->].
    destruct e as [msg now [] | msg n now d | ]; cbn in Hallow; try done.
    apply bool_decide_eq_true in Hallow. by exists pre', msg, now.
Qed.

(** *** The life of an entry of the failure-count table *)

Lemma shows_removal_app msg h t :
  shows_removal msg h → shows_removal msg (h ++ t).
Proof.
  intros (pre & post & handed & [->|(n & d & ->)]);
    exists pre, (post ++ t), handed.
  - left. by rewrite <- !app_assoc.
  - right. exists n, d. by rewrite <- !app_assoc.
Qed.

(** An entry that is there before and not after has been removed, and
    the trace shows it. *)
Lemma steps_removal c h c' msg :
  steps c h c' → ready c →
  is_Some (failureCounts c !! msg) → failureCounts c' !! msg = None →
  shows_removal msg h.
Proof.
  induction 1 as [c|c h c1 _ IH|c h c1 m0 w c2 w2 t Hs IH Hb
                   |c h c1 m0 n0 w c2 w2 t Hs IH _ Hb];
    intros Hr Hbefore Hafter.
  - destruct Hbefore as [n Hn]. congruence.
  - by apply IH.
  - destruct (failureCounts c1 !! msg) as [n|] eqn:Hmid;
      [|by apply shows_removal_app, IH].
    destruct (handlerMsg_body_effect c1 m0 w (steps_ready _ _ _ Hs Hr))
      as (c2' & w2' & t' & now & Hb' & _ & Hother & Hself).
    rewrite Hb in Hb'. injection Hb' as <- <- <-.
    destruct (decide (msg = now)) as [->|Hne];
      [|rewrite (Hother msg Hne) in Hafter; congruence].
    destruct Hself as [[_ Hl]|(a & -> & Hl)]; [congruence|].
    destruct a; [|congruence].
    exists h, [], m0. by left.
  - destruct (failureCounts c1 !! msg) as [n|] eqn:Hmid;
      [|by apply shows_removal_app, IH].
    destruct (deliverDeadLetter_body_effect c1 m0 n0 w
                (steps_ready _ _ _ Hs Hr))
      as (c2' & w2' & t' & Hb' & _ & Hself).
    rewrite Hb in Hb'. injection Hb' as <- <- <-.
    destruct Hself as [(_ & _ & ->)|(_ & now & d & a & -> & _ & Hother & Hl)];
      [congruence|].
    destruct (decide (msg = now)) as [->|Hne];
      [|rewrite (Hother msg Hne) in Hafter; congruence].
    destruct a; [|congruence].
    exists h, [], m0. right. by exists n0, d.
Qed.

Lemma callback_failures_app h t :
  callback_failures (h ++ t) =
    (callback_failures h + callback_failures t)%nat.
Proof. unfold callback_failures. by rewrite List.filter_app, length_app. Qed.

(** Starting from an empty table, a count is at least 1 and at most
    the number of failures of the callback so far, as long as that
    number is an [int]. *)
Lemma steps_counts c h c' :
  steps c h c' → ready c → failureCounts c = ∅ →
  Z.of_nat (callback_failures h) ≤ GoInt.max_int →
  ∀ msg n, failureCounts c' !! msg = Some n →
           1 ≤ n ≤ Z.of_nat (callback_failures h).
Proof.
  induction 1 as [c|c h c1 _ IH|c h c1 m0 w c2 w2 t Hs IH Hb
                   |c h c1 m0 n0 w c2 w2 t Hs IH _ Hb];
    intros Hr Hempty Hmax msg n Hn.
  - rewrite Hempty in Hn. by rewrite lookup_empty in Hn.
  - by apply (IH Hr Hempty Hmax msg n).
  - rewrite callback_failures_app in *.
    assert (Z.of_nat (callback_failures h) ≤ GoInt.max_int) as Hmaxh by lia.
    specialize (IH Hr Hempty Hmaxh).
    destruct (handlerMsg_body_effect c1 m0 w (steps_ready _ _ _ Hs Hr))
      as (c2' & w2' & t' & now & Hb' & _ & Hother & Hself).
    rewrite Hb in Hb'. injection Hb' as <- <- <-.
    destruct (decide (msg = now)) as [->|Hne].
    + destruct Hself as [[-> Hl]|(a & -> & Hl)].
      * rewrite Hl in Hn. injection Hn as <-.
        change (callback_failures [ECallback m0 now false]) with 1%nat in *.
        unfold count.
        destruct (failureCounts c1 !! now) as [k|] eqn:Hk; cbn.
        -- specialize (IH now k Hk).
           rewrite GoInt_incr_small; unfold GoInt.min_int; lia.
        -- rewrite GoInt_incr_small;
             unfold GoInt.min_int, GoInt.max_int; lia.
      * destruct a; [congruence|]. rewrite Hl in Hn.
        specialize (IH now n Hn). lia.
    + rewrite (Hother msg Hne) in Hn. specialize (IH msg n Hn). lia.
  - rewrite callback_failures_app in *.
    assert (Z.of_nat (callback_failures h) ≤ GoInt.max_int) as Hmaxh by lia.
    specialize (IH Hr Hempty Hmaxh).
    destruct (deliverDeadLetter_body_effect c1 m0 n0 w
                (steps_ready _ _ _ Hs Hr))
      as (c2' & w2' & t' & Hb' & _ & Hself).
    rewrite Hb in Hb'. injection Hb' as <- <- <-.
    destruct Hself as [(_ & _ & ->)|(_ & now & d & a & -> & _ & Hother & Hl)].
    { specialize (IH msg n Hn). lia. }
    destruct (decide (msg = now)) as [->|Hne].
    + destruct a; [congruence|]. rewrite Hl in Hn.
      specialize (IH now n Hn). lia.
    + rewrite (Hother msg Hne) in Hn. specialize (IH msg n Hn). lia.
Qed.

(** C4, as the code has it.  In message handling, a failure of the
    callback creates the entry of the message as the callback left it
    (the message it was handed, when the callback only reads it), with
    the count 1, when that message has none, and otherwise adds one to
    its count (Go's [++]: the sum as long as the count is not the
    largest integer); no other entry changes.  An entry is removed only
    by a successful acknowledgment: whenever an entry that was in the
    table is no longer there, the trace shows a successful
    acknowledgment of the message right after a successful callback
    that left it, or right after a delivery to the mailbox that left
    it, whether that delivery succeeded or not. *)
Theorem failure_count_lifecycle c msg :
  ready c →
  (∀ callback w now e w1,
     callbackFunc c = Some callback → callback msg w = (now, Some e, w1) →
     (callback_reads_only c → now = msg) ∧
     ∃ c1,
       handlerMsg_body c msg w = (Some c1, w1, [ECallback msg now false]) ∧
       (failureCounts c !! now = None →
        failureCounts c1 !! now = Some 1) ∧
       (∀ n, failureCounts c !! now = Some n →
             failureCounts c1 !! now = Some (GoInt.incr n) ∧
             (GoInt.min_int ≤ n < GoInt.max_int →
              failureCounts c1 !! now = Some (n + 1))) ∧
       (∀ k, k ≠ now → failureCounts c1 !! k = failureCounts c !! k)) ∧
  (∀ h c', steps c h c' →
           is_Some (failureCounts c !! msg) →
           failureCounts c' !! msg = None →
           shows_removal msg h) ∧
  (∀ schedule w,
     ∃ c' w' t,
       run schedule c w = (Some c', w', t) ∧
       (is_Some (failureCounts c !! msg) →
        failureCounts c' !! msg = None →
        shows_removal msg t)).
Proof.
  intros Hr. split; [|split].
  - intros callback w now e w1 Hcb Hcall.
    destruct (handlerMsg_body_cases c msg w Hr)
      as (cb & cl & now' & err & w1' & Hcb' & _ & Hcall' & Hnow & H).
    rewrite Hcb in Hcb'. injection Hcb' as <-.
    rewrite Hcall in Hcall'. injection Hcall' as <- <- <-.
    split; [done|].
    eexists. split; [exact H|]. cbn. unfold count. split; [|split].
    + intros ->. by rewrite lookup_insert_eq.
    + intros n ->. rewrite lookup_insert_eq. cbn. split; [done|].
      intros Hn. by rewrite GoInt_incr_small.
    + intros k Hne. by rewrite lookup_insert_ne.
  - intros h c' Hs. by apply steps_removal.
  - intros schedule w.
    destruct (run_steps schedule c w Hr) as (c' & w' & t & Hrun & Hs).
    exists c', w', t. split; [done|]. by eapply steps_removal.
Qed.

Lemma repairConsumer_mailbox (o : @ConsumerOptions W) :
  is_Some (deadLetterMailbox (repairConsumer o)).
Proof.
  destruct o as [rt lim mb dlt hmt]. unfold repairConsumer.
  destruct mb; cbn; repeat (case_bool_decide; cbn in *); by eexists.
Qed.

Lemma repairConsumer_limit (o : @ConsumerOptions W) :
  0 ≤ maxRetryLimit o → maxRetryLimit (repairConsumer o) = maxRetryLimit o.
Proof.
  destruct o as [rt lim mb dlt hmt]. unfold repairConsumer.
  destruct mb; cbn; repeat (case_bool_decide; cbn in *); intros; lia.
Qed.

(** A consumer returned by [NewConsumer] is ready, and its table is
    empty. *)
Lemma NewConsumer_ready (cl : option Client)
  (topic groupID consumerID : string) (callback : option (@MsgCallback W))
  (options : list (@ConsumerOption W)) c started :
  NewConsumer cl topic groupID consumerID callback options
    = returned (Some c) None started →
  ready c ∧ failureCounts c = ∅.
Proof.
  unfold NewConsumer. cbn zeta.
  destruct (checkParam _) as [e|] eqn:Hcheck; [done|].
  apply checkParam_nil in Hcheck. cbn in Hcheck.
  destruct Hcheck as (Hcb & Hcl & _).
  destruct (apply_options _ _) as [o|]; [|done].
  intros [= <- _]. split; [|done].
  split; [|split]; cbn.
  - by destruct callback.
  - by destruct cl.
  - apply repairConsumer_mailbox.
Qed.

(** C10.  Starting from the consumer that [NewConsumer] returns, whose
    table is empty, and after any sequence of steps of message
    handling and of dead-letter escalation (and of [Stop]), every
    entry of the table has a count of at least 1, as long as the
    callback has failed at most [max_int] times in all, so that no
    counter has wrapped around.  So it is for the loop, whatever the
    schedule. *)
Theorem failure_counts_positive (cl : option Client)
  (topic groupID consumerID : string) (callback : option (@MsgCallback W))
  (options : list (@ConsumerOption W)) c started :
  NewConsumer cl topic groupID consumerID callback options
    = returned (Some c) None started →
  (∀ h c',
     steps c h c' →
     Z.of_nat (callback_failures h) ≤ GoInt.max_int →
     ∀ msg n, failureCounts c' !! msg = Some n → 1 ≤ n) ∧
  (∀ schedule w,
     ∃ c' w' t,
       run schedule c w = (Some c', w', t) ∧
       (Z.of_nat (callback_failures t) ≤ GoInt.max_int →
        ∀ msg n, failureCounts c' !! msg = Some n → 1 ≤ n)).
Proof.
  intros [Hr Hempty]%NewConsumer_ready. split.
  - intros h c' Hs Hmax msg n Hn.
    by destruct (steps_counts _ _ _ Hs Hr Hempty Hmax msg n Hn).
  - intros schedule w.
    destruct (run_steps schedule c w Hr) as (c' & w' & t & Hrun & Hs).
    exists c', w', t. split; [done|]. intros Hmax msg n Hn.
    by destruct (steps_counts _ _ _ Hs Hr Hempty Hmax msg n Hn).
Qed.

(** A batch handled by a callback that only reads leaves alone the
    messages that are not in it. *)
Lemma handlerMsg_not_in messages msg c w c' w' t :
  ready c → callback_reads_only c → msg ∉ messages →
  handlerMsg c messages w = (Some c', w', t) →
  failureCounts c' !! msg = failureCounts c !! msg ∧
  ∀ now ok, ECallback msg now ok ∉ t.
Proof.
  revert c w c' w' t.
  induction messages as [|m0 rest IH]; intros c w c' w' t Hr Hro Hnot Hh.
  { injection Hh as <- <- <-. split; [done|].
    intros now ok H. by apply elem_of_nil in H. }
  apply not_elem_of_cons in Hnot as [Hne Hnot].
  destruct (handlerMsg_body_effect c m0 w Hr)
    as (c1 & w1 & t1 & now & Hb & Hnow & Hother & Hself).
  rewrite (Hnow Hro) in *. clear Hnow.
  rewrite (handlerMsg_cons _ _ _ _ _ _ _ Hb) in Hh.
  destruct (handlerMsg c1 rest w1) as [[r w2] t2] eqn:Hrest.
  injection Hh as -> <- <-.
  pose proof (steps_handle_one _ _ _ _ _ _ Hb) as Hs1.
  pose proof (steps_ready _ _ _ Hs1 Hr) as Hr1.
  pose proof (proj1 (same_setup_reads_only c c1 (steps_frame _ _ _ Hs1)) Hro)
    as Hro1.
  destruct (IH _ _ _ _ _ Hr1 Hro1 Hnot Hrest) as [-> Hno2].
  split; [by apply Hother|].
  intros now' ok [Hin|Hin]%elem_of_app; [|by eapply Hno2].
  destruct Hself as [[-> _]|(a & -> & _)].
  - apply elem_of_cons in Hin as [[=]|Hin]; [done|].
    by apply elem_of_nil in Hin.
  - apply elem_of_cons in Hin as [[=]|Hin]; [done|].
    apply elem_of_cons in Hin as [[=]|Hin]. by apply elem_of_nil in Hin.
Qed.

(** C8, as the code has it.  A retry limit of 0 is kept by
    [repairConsumer].  With that limit and a callback that only reads
    the messages, when a message that has no entry in the table is
    handled once in a batch and its callback fails, its count is 1 at
    the end of the batch, and, when the mailbox only reads the messages
    too, the escalation that follows delivers the message to the
    mailbox and acknowledges it. *)
Theorem zero_retry_limit_escalates_first_failure :
  (∀ o : @ConsumerOptions W,
     maxRetryLimit o = 0 → maxRetryLimit (repairConsumer o) = 0) ∧
  (∀ c pre msg post w,
     ready c → callback_reads_only c → maxRetryLimit (opts c) = 0 →
     failureCounts c !! msg = None → msg ∉ pre → msg ∉ post →
     ∃ c1 w1 t1,
       handlerMsg c (pre ++ msg :: post) w = (Some c1, w1, t1) ∧
       (ECallback msg msg false ∈ t1 →
        failureCounts c1 !! msg = Some 1 ∧
        maxRetryLimit (opts c1) ≤ 1 ∧
        (mailbox_reads_only c →
         ∀ w2, ∃ c2 w3 t2 before delivered acked after,
                 deliverDeadLetter c1 w2 = (Some c2, w3, t2) ∧
                 t2 = before
                      ++ [EDeliver msg 1 msg delivered;
                          EAck (MsgID msg) acked]
                      ++ after))).
Proof.
  split.
  { intros o Ho. rewrite repairConsumer_limit; lia. }
  intros c pre msg post w Hr Hro Hlim Hnone Hpre Hpost.
  destruct (handlerMsg_steps pre c w Hr) as (ca & wa & ta & Hha & Hsa).
  pose proof (steps_ready _ _ _ Hsa Hr) as Hra.
  pose proof (proj1 (same_setup_reads_only c ca (steps_frame _ _ _ Hsa)) Hro)
    as Hroa.
  destruct (handlerMsg_not_in _ _ _ _ _ _ _ Hr Hro Hpre Hha) as [Hfa Hnoa].
  destruct (handlerMsg_body_effect ca msg wa Hra)
    as (cb & wb & tb & now & Hb & Hnow & _ & Hself).
  rewrite (Hnow Hroa) in *. clear Hnow.
  pose proof (steps_handle_one _ _ _ _ _ _ Hb) as Hsb.
  pose proof (steps_ready _ _ _ Hsb Hra) as Hrb.
  pose proof (proj1 (same_setup_reads_only ca cb (steps_frame _ _ _ Hsb)) Hroa)
    as Hrob.
  destruct (handlerMsg_steps post cb wb Hrb) as (c1 & w1 & t1 & Hh1 & Hs1).
  pose proof (steps_ready _ _ _ Hs1 Hrb) as Hr1.
  destruct (handlerMsg_not_in _ _ _ _ _ _ _ Hrb Hrob Hpost Hh1) as [Hf1 Hno1].
  exists c1, w1, (ta ++ tb ++ t1). split.
  { rewrite handlerMsg_app, Hha.
    by rewrite (handlerMsg_cons _ _ _ _ _ _ _ Hb), Hh1. }
  intros [Hin|[Hin|Hin]%elem_of_app]%elem_of_app;
    [by apply Hnoa in Hin| |by apply Hno1 in Hin].
  assert (same_setup c c1) as Hsame.
  { apply (steps_frame c (ta ++ tb ++ t1)).
    eapply steps_trans; [done|]. by eapply steps_trans. }
  assert (opts c1 = opts c) as Hopts by apply Hsame.
  assert (failureCounts c1 !! msg = Some 1) as Hone.
  { destruct Hself as [[_ Hl]|(a & -> & _)].
    - rewrite Hf1, Hl. unfold count. rewrite Hfa, Hnone. done.
    - apply elem_of_cons in Hin as [[=]|Hin].
      apply elem_of_cons in Hin as [[=]|Hin]. by apply elem_of_nil in Hin. }
  split; [done|]. split; [rewrite Hopts; lia|].
  intros Hrom w2.
  destruct (deliverDeadLetter_effect c1 w2 Hr1
              (proj2 (same_setup_reads_only c c1 Hsame) Hrom))
    as (c2 & w3 & t2 & Hd & Hentries & _).
  destruct (Hentries msg 1 Hone) as [_ Hhigh].
  destruct Hhigh as (before & d & a & after & -> & _);
    [rewrite Hopts; lia|].
  eexists c2, w3, _, before, d, a, after. by split.
Qed.

End Loop.

(** ** The model at work in the simulated world *)

Example sim_consumer_is_new callback limit mailbox :
  NewConsumer the_client "T" "G" "c1" (Some callback)
    [WithMaxRetryLimit limit; WithDeadLetterMailbox mailbox]
  = returned (Some (sim_consumer callback limit mailbox)) None
      [go_run (sim_consumer callback limit mailbox)].
Proof. reflexivity. Qed.

Lemma sim_consumer_ready callback limit mailbox :
  ready (sim_consumer callback limit mailbox).
Proof.
  split; [by eexists|]. split; [by eexists|].
  apply repairConsumer_mailbox.
Defined.

(** A callback that always fails and a limit of 1: the message is handled
    once, escalated and acknowledged. *)
Example sim_run_failing :
  run [false] (sim_consumer callback_failing 1 None) (sim_acking [msg1] [])
  = (Some (sim_consumer callback_failing 1 None),
     mkSim None 1 None [msg1] []
       [("msg fail execeed retry limit, msg id: %s",
         [arg_string (MsgID msg1)])],
     [ECallback msg1 msg1 false; EDeliver msg1 1 msg1 true;
      EAck (MsgID msg1) true]).
Proof. vm_compute. reflexivity. Qed.

Lemma repairConsumer_defaults_witness :
  let unset := mkOpts (-1) (-1) (@None (@DeadLetterMailbox Sim)) 0 (-5) in
  let set := mkOpts 0 0 (Some mailbox_failing) 7 9 in
  (receiveTimeout (repairConsumer unset) = 2 * time.Second ∧
   maxRetryLimit (repairConsumer unset) = 3 ∧
   deadLetterMailbox (repairConsumer unset) = Some DeadLetterLogger ∧
   deadLetterDeliverTimeout (repairConsumer unset) = time.Second ∧
   handleMsgTimeout (repairConsumer unset) = time.Second) ∧
  (receiveTimeout (repairConsumer set) = 0 ∧
   maxRetryLimit (repairConsumer set) = 0 ∧
   deadLetterMailbox (repairConsumer set) = Some mailbox_failing ∧
   deadLetterDeliverTimeout (repairConsumer set) = 7 ∧
   handleMsgTimeout (repairConsumer set) = 9).
Proof.
  intros unset set.
  destruct (repairConsumer_defaults unset)
    as (H1 & _ & H3 & _ & H5 & _ & H7 & _ & H9 & _).
  destruct (repairConsumer_defaults set)
    as (_ & K2 & _ & K4 & _ & K6 & _ & K8 & _ & K10 & _).
  split.
  - split; [apply H1; cbn; lia|]. split; [apply H3; cbn; lia|].
    split; [by apply H5|]. split; [apply H7; cbn; lia|apply H9; cbn; lia].
  - split; [apply K2; cbn; lia|]. split; [apply K4; cbn; lia|].
    split; [by apply K6|]. split; [apply K8; cbn; lia|apply K10; cbn; lia].
Defined.

Lemma NewConsumer_error_iff_witness :
  (∃ r err started,
     NewConsumer the_client "" "G" "c1" (Some callback_ok) []
     = returned r (Some err) started) ∧
  (∃ c,
     NewConsumer the_client "T" "G" "c1" (Some callback_ok)
       [WithMaxRetryLimit 0; WithDeadLetterMailbox None]
     = returned (Some c) None [go_run c] ∧
     done_closed (ctx c) = false ∧ failureCounts c = ∅) ∧
  NewConsumer the_client "T" "G" "c1" (Some callback_ok)
    [WithMaxRetryLimit 0; None] = panicked.
Proof.
  split; [|split].
  - apply (NewConsumer_error_iff the_client "" "G" "c1" (Some callback_ok) []).
    right. right. left. reflexivity.
  - apply (NewConsumer_error_iff the_client "T" "G" "c1" (Some callback_ok)
             [WithMaxRetryLimit 0; WithDeadLetterMailbox None]);
      try discriminate.
    intros H. apply elem_of_cons in H as [H|H]; [discriminate H|].
    apply elem_of_cons in H as [H|H]; [discriminate H|].
    by apply elem_of_nil in H.
  - apply (NewConsumer_error_iff the_client "T" "G" "c1" (Some callback_ok)
             [WithMaxRetryLimit 0; None]).
    split; [repeat split; discriminate|].
    apply elem_of_cons. right. apply elem_of_cons. by left.
Defined.

Lemma XAck_fails_iff_reply_not_one_witness :
  (∃ err,
     XAck the_client "T" "G" (MsgID msg1) (sim_replying 0)
     = (Some err, sim_replying 0, []) ∧ is_nil err = false) ∧
  (∃ err,
     XAck the_client "T" "G" (MsgID msg1) (sim_replying 1)
     = (Some err, sim_replying 1, []) ∧ is_nil err = true).
Proof.
  split.
  - destruct (XAck_fails_iff_reply_not_one (mkClient 0) "T" "G" (MsgID msg1)
                0 (sim_replying 0) (sim_replying 0) (sim_replying 0))
      as (err & Hx & Hfail & _); try done.
    exists err. split; [exact Hx|]. apply Hfail. lia.
  - destruct (XAck_fails_iff_reply_not_one (mkClient 0) "T" "G" (MsgID msg1)
                1 (sim_replying 1) (sim_replying 1) (sim_replying 1))
      as (err & Hx & _ & Hok & _); try done.
    exists err. split; [exact Hx|]. by apply Hok.
Defined.

(** C6, as stated, fails: the server answers 2, so at least one record was
    acknowledged and the transport worked, and [XAck] returns an error. *)
Lemma XAck_rejects_reply_two :
  pool_GetContext 0 (sim_replying 2) = (None, sim_replying 2) ∧
  conn_Do_XACK "T" "G" (MsgID msg1) (sim_replying 2)
    = (2, None, sim_replying 2) ∧
  1 ≤ 2 ∧
  XAck the_client "T" "G" (MsgID msg1) (sim_replying 2)
    = (Some (Some (fmt_Errorf "invalid reply: %d" 2)), sim_replying 2, []).
Proof. repeat split; first [ lia | vm_compute; reflexivity ]. Qed.

Lemma deliverDeadLetter_escalates_witness :
  ready sim_two_entries ∧ mailbox_reads_only sim_two_entries ∧
  ∃ c' w' t,
    deliverDeadLetter sim_two_entries (sim_acking [] []) = (Some c', w', t) ∧
    failureCounts c' !! msg2 = Some 1 ∧
    ∃ pre delivered acked post,
      t = pre ++ [EDeliver msg1 2 msg1 delivered; EAck (MsgID msg1) acked]
              ++ post ∧
      failureCounts c' !! msg1 = if acked then None else Some 2.
Proof.
  assert (ready sim_two_entries) as Hr by apply sim_consumer_ready.
  assert (mailbox_reads_only sim_two_entries) as Hro by (by vm_compute).
  split; [exact Hr|]. split; [exact Hro|].
  destruct (deliverDeadLetter_escalates sim_two_entries (sim_acking [] []) Hr)
    as [Hesc _].
  destruct (Hesc Hro) as (c' & w' & t & Hd & Hentries & _).
  exists c', w', t. split; [exact Hd|]. split.
  - apply (Hentries msg2 1); [vm_compute; reflexivity|]. vm_compute. reflexivity.
  - apply (Hentries msg1 2); [vm_compute; reflexivity|]. vm_compute. discriminate.
Defined.

(** C1, as stated, fails: the mailbox writes the key of the message it
    is handed; the entry of the message has reached the limit of 1, the
    message is delivered and the acknowledgment succeeds, and the entry
    is still in the table. *)
Lemma entry_stays_after_acknowledged_escalation :
  let c := with_failureCounts
             (sim_consumer callback_ok 1 (Some mailbox_rewriting))
             (<[msg1 := 1]> ∅) in
  ∃ c' w',
    failureCounts c !! msg1 = Some 1 ∧
    maxRetryLimit (opts c) = 1 ∧
    deliverDeadLetter c (sim_acking [] [])
    = (Some c', w',
       [EDeliver msg1 1 (rewritten msg1) true; EAck (MsgID msg1) true]) ∧
    failureCounts c' !! msg1 = Some 1.
Proof.
  eexists _, _.
  split; [vm_compute; reflexivity|].
  split; [vm_compute; reflexivity|].
  split; vm_compute; reflexivity.
Qed.

Lemma handlerMsg_each_message_witness :
  ready (sim_consumer callback_failing 2 None) ∧
  callback_reads_only (sim_consumer callback_failing 2 None) ∧
  ∃ c3 w3 t,
    handlerMsg (sim_consumer callback_failing 2 None) ([msg1] ++ msg2 :: [msg1])
      (sim_acking [] []) = (Some c3, w3, t).
Proof.
  assert (ready (sim_consumer callback_failing 2 None)) as Hr
      by apply sim_consumer_ready.
  assert (callback_reads_only (sim_consumer callback_failing 2 None)) as Hro
      by (intros msg w; reflexivity).
  split; [exact Hr|]. split; [exact Hro|].
  destruct (handlerMsg_each_message (sim_consumer callback_failing 2 None)
              [msg1] msg2 [msg1] (sim_acking [] []) Hr) as [Hread _].
  destruct (Hread Hro)
    as (cb & cl & c1 & w1 & t1 & c2 & w2 & t2 & c3 & w3 & t3 & _ & _ & _ & _
        & _ & Hh & _).
  exists c3, w3, (t1 ++ t2 ++ t3). exact Hh.
Defined.

(** C2, as stated, fails: the callback writes the key of the message it
    is handed.  When it succeeds and the acknowledgment succeeds, the
    entry of the message is still in the table; when it fails, the
    message gets no entry, and the entry made is that of the message as
    the callback left it. *)
Lemma rewritten_message_keeps_its_entry :
  let c := with_failureCounts (sim_consumer callback_rewriting 3 None)
             (<[msg1 := 1]> ∅) in
  (∃ c1 w1,
     failureCounts c !! msg1 = Some 1 ∧
     handlerMsg c [msg1] (sim_acking [] [])
     = (Some c1, w1,
        [ECallback msg1 (rewritten msg1) true; EAck (MsgID msg1) true]) ∧
     failureCounts c1 !! msg1 = Some 1) ∧
  (∃ c1 w1,
     handlerMsg (sim_consumer callback_rewriting_failing 3 None) [msg1]
       (sim_acking [] [])
     = (Some c1, w1, [ECallback msg1 (rewritten msg1) false]) ∧
     failureCounts c1 !! msg1 = None ∧
     failureCounts c1 !! rewritten msg1 = Some 1).
Proof.
  split; eexists _, _.
  - split; [vm_compute; reflexivity|].
    split; vm_compute; reflexivity.
  - split; [vm_compute; reflexivity|].
    split; vm_compute; reflexivity.
Qed.

Lemma acks_follow_success_or_delivery_witness :
  ready (sim_consumer callback_failing 1 None) ∧
  ∃ c' w' t,
    run [false; false] (sim_consumer callback_failing 1 None)
      (sim_acking [msg1] []) = (Some c', w', t) ∧
    (∀ pre msg failureCnt now delivered post,
       t = pre ++ EDeliver msg failureCnt now delivered :: post →
       1 ≤ failureCnt).
Proof.
  assert (ready (sim_consumer callback_failing 1 None)) as Hr
      by apply sim_consumer_ready.
  split; [exact Hr|].
  destruct (acks_follow_success_or_delivery [false; false]
              (sim_consumer callback_failing 1 None) (sim_acking [msg1] []) Hr)
    as (c' & w' & t & Hrun & _ & Hdel & _).
  exists c', w', t. split; [exact Hrun|].
  intros pre msg n now d post Ht.
  destruct (Hdel pre msg n now d post Ht) as [Hge _]. exact Hge.
Defined.

(** C3, as stated, fails: the callback fails on the message, which
    reaches the limit of 1, is delivered to the mailbox and is
    acknowledged; no callback has returned success before the
    acknowledgment. *)
Lemma ack_without_successful_callback :
  ∃ c' w' t,
    run [false] (sim_consumer callback_failing 1 None) (sim_acking [msg1] [])
    = (Some c', w', t) ∧
    t = [ECallback msg1 msg1 false; EDeliver msg1 1 msg1 true;
         EAck (MsgID msg1) true] ∧
    ¬ (∀ pre msgID ok post,
         t = pre ++ EAck msgID ok :: post →
         ∃ msg now, ECallback msg now true ∈ pre).
Proof.
  eexists _, _, _. split; [vm_compute; reflexivity|]. split; [reflexivity|].
  intros H.
  destruct (H [ECallback msg1 msg1 false; EDeliver msg1 1 msg1 true]
              (MsgID msg1) true [] eq_refl) as (msg & now & Hin).
  apply elem_of_cons in Hin as [[=]|Hin].
  apply elem_of_cons in Hin as [[=]|Hin].
  by apply elem_of_nil in Hin.
Qed.

Lemma failure_count_lifecycle_witness :
  ready sim_two_entries ∧
  ∃ c1,
    handlerMsg_body sim_two_entries msg2 (sim_acking [] [])
    = (Some c1, sim_acking [] [], [ECallback msg2 msg2 false]) ∧
    failureCounts c1 !! msg2 = Some 2 ∧
    failureCounts c1 !! msg1 = Some 2.
Proof.
  assert (ready sim_two_entries) as Hr by apply sim_consumer_ready.
  split; [exact Hr|].
  destruct (failure_count_lifecycle sim_two_entries msg2 Hr) as [Hfail _].
  destruct (Hfail callback_failing (sim_acking [] []) msg2
              (errors_New "callback failed") (sim_acking [] [])
              eq_refl eq_refl) as (_ & c1 & Hb & _ & Hincr & Hother).
  exists c1. split; [exact Hb|]. split.
  - destruct (Hincr 1) as [_ Hplus]; [vm_compute; reflexivity|].
    apply Hplus. vm_compute. split; [discriminate|reflexivity].
  - rewrite (Hother msg1); [vm_compute; reflexivity|discriminate].
Defined.

(** C4, as stated, fails: the entry of a message at the limit is removed
    although its delivery to the mailbox failed; the acknowledgment
    succeeded. *)
Lemma entry_removed_after_failed_delivery :
  ∃ c1 w1 c2 w2,
    handlerMsg (sim_consumer callback_failing 1 (Some mailbox_failing))
      [msg1] (sim_acking [msg1] [])
    = (Some c1, w1, [ECallback msg1 msg1 false]) ∧
    failureCounts c1 !! msg1 = Some 1 ∧
    deliverDeadLetter c1 w1
    = (Some c2, w2, [EDeliver msg1 1 msg1 false; EAck (MsgID msg1) true]) ∧
    failureCounts c2 !! msg1 = None.
Proof.
  eexists _, _, _, _.
  split; [vm_compute; reflexivity|].
  split; [vm_compute; reflexivity|].
  split; vm_compute; reflexivity.
Qed.

Lemma zero_retry_limit_escalates_first_failure_witness :
  maxRetryLimit (repairConsumer (mkOpts 0 0 (@None (@DeadLetterMailbox Sim)) 0 0))
  = 0 ∧
  ready (sim_consumer callback_failing 0 None) ∧
  callback_reads_only (sim_consumer callback_failing 0 None) ∧
  mailbox_reads_only (sim_consumer callback_failing 0 None) ∧
  ∃ c1 w1 t1,
    handlerMsg (sim_consumer callback_failing 0 None) ([msg2] ++ msg1 :: [])
      (sim_acking [] []) = (Some c1, w1, t1) ∧
    failureCounts c1 !! msg1 = Some 1 ∧
    ∃ c2 w3 t2 before delivered acked after,
      deliverDeadLetter c1 w1 = (Some c2, w3, t2) ∧
      t2 = before ++ [EDeliver msg1 1 msg1 delivered; EAck (MsgID msg1) acked]
                  ++ after.
Proof.
  assert (ready (sim_consumer callback_failing 0 None)) as Hr
      by apply sim_consumer_ready.
  assert (callback_reads_only (sim_consumer callback_failing 0 None)) as Hro
      by (intros msg w; reflexivity).
  assert (mailbox_reads_only (sim_consumer callback_failing 0 None)) as Hrom
      by (by vm_compute).
  destruct (@zero_retry_limit_escalates_first_failure Sim _) as [Hkeep Hesc].
  split; [by apply Hkeep|]. split; [exact Hr|].
  split; [exact Hro|]. split; [exact Hrom|].
  destruct (Hesc (sim_consumer callback_failing 0 None) [msg2] msg1 []
              (sim_acking [] []) Hr Hro)
    as (c1 & w1 & t1 & Hh & Hfail).
  - reflexivity.
  - reflexivity.
  - intros [[=]|Hin]%elem_of_cons. by apply elem_of_nil in Hin.
  - intros Hin. by apply elem_of_nil in Hin.
  - exists c1, w1, t1. split; [exact Hh|].
    assert (ECallback msg1 msg1 false ∈ t1) as Hin.
    { assert (t1 = [ECallback msg2 msg2 false; ECallback msg1 msg1 false])
        as ->.
      { vm_compute in Hh. by injection Hh as _ _ <-. }
      apply elem_of_cons. right. apply elem_of_cons. by left. }
    destruct (Hfail Hin) as (Hone & _ & Hdel). split; [exact Hone|].
    by apply Hdel.
Defined.

(** C8, as stated, fails: the limit is 0 and the callback overwrites
    each message it is handed with the same message; it fails on the
    first message of the batch and succeeds on the second, whose
    acknowledgment removes the entry that the failure made.  The table
    is empty at the end of the batch and the escalation that follows
    delivers nothing. *)
Lemma first_failure_not_escalated :
  ∃ c1 w1,
    handlerMsg (sim_consumer callback_merging 0 None) [msg1; msg2]
      (sim_acking [] [])
    = (Some c1, w1,
       [ECallback msg1 merged false; ECallback msg2 merged true;
        EAck (MsgID merged) true]) ∧
    maxRetryLimit (opts c1) = 0 ∧
    failureCounts c1 = ∅ ∧
    deliverDeadLetter c1 w1 = (Some c1, w1, []).
Proof.
  eexists _, _.
  split; [vm_compute; reflexivity|].
  split; [vm_compute; reflexivity|].
  split; vm_compute; reflexivity.
Qed.

Lemma failure_counts_positive_witness :
  ∃ c' w' t,
    run [false; false] (sim_consumer callback_failing 3 None)
      (sim_acking [msg1] [msg1]) = (Some c', w', t) ∧
    (∀ msg n, failureCounts c' !! msg = Some n → 1 ≤ n).
Proof.
  destruct (failure_counts_positive the_client "T" "G" "c1"
              (Some callback_failing)
              [WithMaxRetryLimit 3; WithDeadLetterMailbox None]
              (sim_consumer callback_failing 3 None)
              [go_run (sim_consumer callback_failing 3 None)] eq_refl)
    as [_ Hrun].
  destruct (Hrun [false; false] (sim_acking [msg1] [msg1]))
    as (c' & w' & t & Hr & Hpos).
  exists c', w', t. split; [exact Hr|].
  apply Hpos.
  assert (t = [ECallback msg1 msg1 false; ECallback msg1 msg1 false;
               ECallback msg1 msg1 false; EDeliver msg1 3 msg1 true;
               EAck (MsgID msg1) true; ECallback msg1 msg1 false]) as ->.
  { vm_compute in Hr. by injection Hr as _ _ <-. }
  vm_compute. discriminate.
Defined.

(** ** More properties of the consumer *)

Section Reading.

Context {W : Type} `{!Outside W}.

Implicit Types (c : @Consumer W) (w : W) (msg : MsgEntity).

Lemma bind_inv {A B} (m : M A) (k : A → M B) w b w' t :
  (m ≫= k) w = (Some b, w', t) →
  ∃ a w1 t1 t2,
    m w = (Some a, w1, t1) ∧ k a w1 = (Some b, w', t2) ∧ t = t1 ++ t2.
Proof.
  unfold_M. destruct (m w) as [[[a|] w1] t1]; [|done].
  destruct (k a w1) as [[r w2] t2] eqn:Hk. intros [= -> <- <-].
  by exists a, w1, t1, t2.
Qed.

Lemma xReadGroup_inv (cl : option Client) (groupID consumerID topic : string)
  (timeout : Z) (pending : bool) w msgs err w' t :
  xReadGroup cl groupID consumerID topic timeout pending w
    = (Some (msgs, err), w', t) →
  t = [] ∧
  ((groupID = "" ∨ consumerID = "" ∨ topic = "") ∧ w' = w ∧ msgs = [] ∧
   err = Some (errors_New
                 "redis XREADGROUP groupID/consumerID/topic can't be empty")
   ∨
   groupID ≠ "" ∧ consumerID ≠ "" ∧ topic ≠ "" ∧
   ∃ cl', cl = Some cl' ∧
          xReadGroup_reply (pool cl') groupID consumerID topic timeout
            pending w
          = (msgs, err, w')).
Proof.
  unfold xReadGroup. case_bool_decide as Hempty.
  - intros [= <- <- <- <-]. split; [done|]. by left.
  - destruct cl as [cl'|]; [|done]. unfold_M.
    destruct (xReadGroup_reply _ _ _ _ _ _ w) as [[ms e] w1] eqn:Hreply.
    intros [= <- <- <- <-]. split; [done|]. right.
    repeat split; try tauto. by exists cl'.
Qed.

(** X1.  [receive] and [receivePending] never return [ErrNoMsg]: "no
    message" is turned into a nil error and the messages of the reader;
    when they do return an error they return no message.  They emit no
    event. *)
Theorem receive_never_returns_ErrNoMsg c w msgs e w' t :
  receive c w = (Some (msgs, Some e), w', t) ∨
  receivePending c w = (Some (msgs, Some e), w', t) →
  e ≠ ErrNoMsg ∧ msgs = [] ∧ t = [].
Proof.
  intros [H|H].
  - unfold receive, XReadGroupNewMsg in H.
    apply bind_inv in H as ([ms err] & w1 & t1 & t2 & Hx & Hk & ->).
    apply xReadGroup_inv in Hx as [-> _].
    destruct err as [e'|]; [|by injection Hk].
    unfold errors_Is in Hk. case_bool_decide as He; cbn in Hk.
    + by injection Hk.
    + injection Hk as <- <- <- <-. done.
  - unfold receivePending, XReadGroupOldMsg in H.
    apply bind_inv in H as ([ms err] & w1 & t1 & t2 & Hx & Hk & ->).
    apply xReadGroup_inv in Hx as [-> _].
    destruct err as [e'|]; [|by injection Hk].
    unfold errors_Is in Hk. case_bool_decide as He; cbn in Hk.
    + by injection Hk.
    + injection Hk as <- <- <- <-. done.
Qed.

(** X2.  When the server has no new message ([ErrNoMsg]) [receive]
    returns without error; when its answer is any other error, one turn
    of the loop does nothing but log it: no callback, no delivery, no
    acknowledgment, and the consumer is as it was. *)
Theorem run_iteration_on_read_error c (cl : Client) w msgs e w1 :
  ready c → client c = Some cl →
  groupID c ≠ "" → consumerID c ≠ "" → topic c ≠ "" →
  xReadGroup_reply (pool cl) (groupID c) (consumerID c) (topic c)
    (time.Milliseconds (receiveTimeout (opts c))) false w
  = (msgs, Some e, w1) →
  (e = ErrNoMsg → receive c w = (Some (msgs, None), w1, [])) ∧
  (e ≠ ErrNoMsg →
   run_iteration c w =
     (Some c,
      log_ErrorContextFormat "receive msg failed, err: %v" [arg_error e] w1,
      [])).
Proof.
  intros Hr Hcl Hg Hc Ht Hreply.
  assert (receive c w =
            (Some (if bool_decide (e = ErrNoMsg) then (msgs, None)
                   else ([], Some e)), w1, [])) as Hrecv.
  { unfold receive, XReadGroupNewMsg, xReadGroup.
    rewrite bool_decide_false by tauto. rewrite Hcl. unfold_M.
    rewrite Hreply. unfold errors_Is. by case_bool_decide. }
  split; intros He.
  - by rewrite Hrecv, bool_decide_true.
  - rewrite bool_decide_false in Hrecv by done.
    unfold run_iteration. by rewrite (bind_Some _ _ _ _ _ _ Hrecv).
Qed.

End Reading.

Section Batches.

Context {W : Type} `{!Outside W}.

Implicit Types (c : @Consumer W) (w : W) (msg : MsgEntity).

Lemma handlerMsg_frame messages c w c' w' t :
  handlerMsg c messages w = (Some c', w', t) →
  ∃ m, c' = with_failureCounts c m.
Proof.
  revert c w t. induction messages as [|msg rest IH]; intros c w t.
  { intros [= <- _ _]. apply frame_refl. }
  cbn [handlerMsg]. intros (c1 & w1 & t1 & t2 & Hb & Hrest & _)%bind_inv.
  apply handlerMsg_body_frame in Hb as [m1 ->].
  apply IH in Hrest as [m2 ->]. by exists m2.
Qed.

Lemma deliverDeadLetter_range_frame entries c w c' w' t :
  deliverDeadLetter_range c entries w = (Some c', w', t) →
  ∃ m, c' = with_failureCounts c m.
Proof.
  revert c w t. induction entries as [|entry rest IH]; intros c w t.
  { intros [= <- _ _]. apply frame_refl. }
  cbn [deliverDeadLetter_range].
  intros (c1 & w1 & t1 & t2 & Hb & Hrest & _)%bind_inv.
  assert (∃ m, c1 = with_failureCounts c m) as [m1 ->].
  { destruct (failureCounts c !! entry.1).
    - by apply deliverDeadLetter_body_frame in Hb.
    - injection Hb as <- _ _. apply frame_refl. }
  apply IH in Hrest as [m2 ->]. by exists m2.
Qed.

Lemma run_iteration_frame c w c' w' t :
  run_iteration c w = (Some c', w', t) → ∃ m, c' = with_failureCounts c m.
Proof.
  unfold run_iteration.
  intros ([msgs err] & w1 & t1 & t2 & _ & Hk & _)%bind_inv.
  destruct err as [e|].
  { unfold_M. injection Hk as <- _ _. apply frame_refl. }
  apply bind_inv in Hk as (c1 & w2 & t3 & t4 & Hh & Hk & _).
  apply handlerMsg_frame in Hh as [m1 ->].
  apply bind_inv in Hk as (c2 & w3 & t5 & t6 & Hd & Hk & _).
  unfold deliverDeadLetter in Hd.
  apply bind_inv in Hd as (entries & w4 & t7 & t8 & _ & Hd & _).
  apply deliverDeadLetter_range_frame in Hd as [m2 ->].
  apply bind_inv in Hk as ([pend err] & w5 & t9 & t10 & _ & Hk & _).
  destruct err as [e|].
  { unfold_M. injection Hk as <- _ _. by exists m2. }
  apply handlerMsg_frame in Hk as [m3 ->]. by exists m3.
Qed.

(** X3.  As long as [Stop] is not called, the loop changes nothing of
    the consumer but its failure-count table: whatever the reads, the
    callbacks, the deliveries and the acknowledgments return, the context
    stays as it was (no error ends the loop), and so do the identity and
    the options. *)
Theorem run_changes_only_the_table schedule c w c' w' t :
  Forall (λ stop_called, stop_called = false) schedule →
  run schedule c w = (Some c', w', t) →
  c' = with_failureCounts c (failureCounts c') ∧ ctx c' = ctx c.
Proof.
  intros Hsched Hrun.
  assert (∃ m, c' = with_failureCounts c m) as [m ->]; [|done].
  revert c w t Hrun.
  induction Hsched as [|b later -> _ IH]; intros c w t.
  { intros [= <- _ _]. apply frame_refl. }
  cbn [run]. destruct (done_closed (ctx c)).
  { intros [= <- _ _]. apply frame_refl. }
  intros (c1 & w1 & t1 & t2 & Hit & Hrun & _)%bind_inv.
  apply run_iteration_frame in Hit as [m1 ->].
  apply IH in Hrun as [m2 ->]. by exists m2.
Qed.

(** X4.  [handlerMsg] calls the callback once on every message of the
    batch, in the order of the batch: a failure on one message, of the
    callback or of the acknowledgment, does not keep the others from
    being handled. *)
Theorem handlerMsg_calls_back_each_message messages c w c' w' t :
  ready c →
  handlerMsg c messages w = (Some c', w', t) →
  callbacks_of t = messages.
Proof.
  revert c w t. induction messages as [|msg rest IH]; intros c w t Hr.
  { by intros [= _ _ <-]. }
  cbn [handlerMsg]. intros (c1 & w1 & t1 & t2 & Hb & Hrest & ->)%bind_inv.
  destruct (handlerMsg_body_effect c msg w Hr)
    as (c1' & w1' & t1' & now & Hb' & _ & _ & Hself).
  rewrite Hb in Hb'. injection Hb' as <- <- <-.
  apply IH in Hrest;
    [|eapply steps_ready; [by eapply steps_handle_one|done]].
  unfold callbacks_of in *. rewrite omap_app, Hrest.
  by destruct Hself as [[-> _]|(a & -> & _)].
Qed.

(** X5.  When the callback only reads the messages and no callback and
    no acknowledgment of a batch fails, the messages of the batch have
    no entry in the table afterwards, and the entries of the other
    messages are as they were. *)
Theorem handlerMsg_all_success messages c w c' w' t :
  ready c → callback_reads_only c →
  handlerMsg c messages w = (Some c', w', t) →
  (∀ msg now, ECallback msg now false ∉ t) →
  (∀ msgID, EAck msgID false ∉ t) →
  ∀ msg,
    failureCounts c' !! msg =
      if bool_decide (msg ∈ messages) then None else failureCounts c !! msg.
Proof.
  revert c w t. induction messages as [|m0 rest IH];
    intros c w t Hr Hro Hh Hcb Hack msg.
  { injection Hh as <- _ _. by rewrite bool_decide_false by apply not_elem_of_nil. }
  cbn [handlerMsg] in Hh.
  apply bind_inv in Hh as (c1 & w1 & t1 & t2 & Hb & Hrest & ->).
  destruct (handlerMsg_body_effect c m0 w Hr)
    as (c1' & w1' & t1' & now & Hb' & Hnow & Hother & Hself).
  rewrite (Hnow Hro) in *. clear Hnow.
  rewrite Hb in Hb'. injection Hb' as <- <- <-.
  pose proof (steps_handle_one _ _ _ _ _ _ Hb) as Hs1.
  pose proof (steps_ready _ _ _ Hs1 Hr) as Hr1.
  pose proof (proj1 (same_setup_reads_only c c1 (steps_frame _ _ _ Hs1)) Hro)
    as Hro1.
  assert (failureCounts c1 !! m0 = None) as Hm0.
  { destruct Hself as [[-> _]|(a & -> & Hl)].
    - exfalso. apply (Hcb m0 m0). apply elem_of_app. left. by left.
    - destruct a; [done|]. exfalso. apply (Hack (MsgID m0)).
      apply elem_of_app. left. right. by left. }
  rewrite (IH c1 w1 t2 Hr1 Hro1 Hrest).
  - destruct (decide (msg = m0)) as [->|Hne].
    + rewrite (bool_decide_true (m0 ∈ m0 :: rest)) by left.
      by case_bool_decide.
    + rewrite (Hother msg Hne).
      destruct (decide (msg ∈ rest)) as [Hin|Hnin].
      * rewrite !bool_decide_true; [done|by right|done].
      * rewrite !bool_decide_false; [done| |done].
        by intros [?|?]%elem_of_cons.
  - intros m now' Hin. apply (Hcb m now'). apply elem_of_app. by right.
  - intros i Hin. apply (Hack i). apply elem_of_app. by right.
Qed.

End Batches.

Section Escalation.

Context {W : Type} `{!Outside W}.

Implicit Types (c : @Consumer W) (w : W) (msg : MsgEntity).

(** The deliveries of the loop of [deliverDeadLetter] over a list of
    entries of the table, no message twice, when the mailbox only reads
    the messages: the entries at or above the limit, in the order of
    the walk. *)
Lemma deliverDeadLetter_range_delivered entries c w c' w' t :
  ready c → mailbox_reads_only c →
  NoDup entries.*1 →
  (∀ msg n, (msg, n) ∈ entries → failureCounts c !! msg = Some n) →
  deliverDeadLetter_range c entries w = (Some c', w', t) →
  delivered_of t =
    (filter (λ e, maxRetryLimit (opts c) ≤ e.2) entries).*1.
Proof.
  revert c w t. induction entries as [|[m0 n0] rest IH];
    intros c w t Hr Hro Hnd Hin.
  { by intros [= _ _ <-]. }
  cbn in Hnd. apply NoDup_cons in Hnd as [Hm0 Hnd].
  assert (Hin0 : failureCounts c !! m0 = Some n0) by (apply Hin; left).
  cbn [deliverDeadLetter_range fst]. rewrite Hin0.
  intros (c1 & w1 & t1 & t2 & Hb & Hrest & ->)%bind_inv.
  destruct (deliverDeadLetter_body_effect c m0 n0 w Hr)
    as (c1' & w1' & t1' & Hb' & Hopts & Hself).
  rewrite Hb in Hb'. injection Hb' as <- <- <-.
  pose proof (steps_escalate_one _ _ _ _ _ _ _ Hin0 Hb) as Hs1.
  pose proof (steps_ready _ _ _ Hs1 Hr) as Hr1.
  pose proof (proj2 (same_setup_reads_only c c1 (steps_frame _ _ _ Hs1)) Hro)
    as Hro1.
  assert (Hin1 : ∀ msg n, (msg, n) ∈ rest →
                          failureCounts c1 !! msg = Some n).
  { intros msg n Hmem.
    assert (msg ≠ m0) as Hne.
    { intros ->. apply Hm0. apply list_elem_of_fmap. by exists (m0, n). }
    destruct Hself as [(_ & _ & ->)|(_ & now & d & a & _ & Hnow & Hk & _)].
    - apply Hin. by right.
    - rewrite (Hnow Hro) in Hk. rewrite (Hk msg Hne). apply Hin. by right. }
  apply (IH _ _ _ Hr1 Hro1 Hnd Hin1) in Hrest. rewrite Hopts in Hrest.
  unfold delivered_of in *. rewrite omap_app, Hrest.
  destruct Hself as [(Hlt & -> & _)|(Hge & now & d & a & -> & _)].
  - rewrite filter_cons_False by (cbn; lia). done.
  - rewrite filter_cons_True by done. done.
Qed.

(** Which messages [deliverDeadLetter] delivers, when the mailbox only
    reads them. *)
Lemma deliverDeadLetter_delivered c w c' w' t :
  ready c → mailbox_reads_only c →
  deliverDeadLetter c w = (Some c', w', t) →
  NoDup (delivered_of t) ∧
  (∀ msg, msg ∈ delivered_of t ↔
          ∃ n, failureCounts c !! msg = Some n ∧
               maxRetryLimit (opts c) ≤ n) ∧
  delivered_of t ≡ₚ
    (filter (λ e, maxRetryLimit (opts c) ≤ e.2)
       (map_to_list (failureCounts c))).*1.
Proof.
  intros Hr Hro Hd. unfold deliverDeadLetter in Hd.
  apply bind_inv in Hd as (entries & w1 & t1 & t2 & Hcall & Hrange & ->).
  unfold call in Hcall. injection Hcall as <- <- <-. cbn [app].
  pose proof (range_order_perm w (failureCounts c)) as Hperm.
  assert (NoDup (range_order w (failureCounts c)).*1) as Hnd
      by (rewrite Hperm; apply NoDup_fst_map_to_list).
  assert (∀ msg n, (msg, n) ∈ range_order w (failureCounts c) →
                   failureCounts c !! msg = Some n) as Hvalid.
  { intros msg n Hmem. rewrite Hperm in Hmem. by apply elem_of_map_to_list. }
  rewrite (deliverDeadLetter_range_delivered _ _ _ _ _ _ Hr Hro Hnd Hvalid
             Hrange).
  split; [|split].
  - eapply sublist_NoDup; [|apply fmap_sublist, sublist_filter].
    rewrite Hperm. apply NoDup_fst_map_to_list.
  - intros msg. rewrite list_elem_of_fmap. split.
    + intros ([m n] & -> & [Hge Hin]%list_elem_of_filter). cbn in *.
      exists n. split; [|done]. rewrite Hperm in Hin.
      by apply elem_of_map_to_list.
    + intros (n & Hn & Hge). exists (msg, n). split; [done|].
      apply list_elem_of_filter. split; [done|]. rewrite Hperm.
      by apply elem_of_map_to_list.
  - by rewrite Hperm.
Qed.

(** X6.  When the mailbox only reads the messages, one escalation
    delivers to it every message whose count is at or above the limit,
    once, and no other message. *)
Theorem deliverDeadLetter_delivers_each_once c w c' w' t :
  ready c → mailbox_reads_only c →
  deliverDeadLetter c w = (Some c', w', t) →
  NoDup (delivered_of t) ∧
  (∀ msg, msg ∈ delivered_of t ↔
          ∃ n, failureCounts c !! msg = Some n ∧
               maxRetryLimit (opts c) ≤ n) ∧
  delivered_of t ≡ₚ
    (filter (λ e, maxRetryLimit (opts c) ≤ e.2)
       (map_to_list (failureCounts c))).*1.
Proof. apply deliverDeadLetter_delivered. Qed.

(** The walk only removes entries, whatever the mailbox does. *)
Lemma deliverDeadLetter_range_subseteq entries c w c' w' t :
  ready c →
  deliverDeadLetter_range c entries w = (Some c', w', t) →
  failureCounts c' ⊆ failureCounts c ∧ opts c' = opts c.
Proof.
  revert c w t. induction entries as [|[m0 n0] rest IH]; intros c w t Hr.
  { by intros [= <- _ _]. }
  cbn [deliverDeadLetter_range fst].
  intros (c1 & w1 & t1 & t2 & Hb & Hrest & _)%bind_inv.
  assert (ready c1 ∧ failureCounts c1 ⊆ failureCounts c ∧ opts c1 = opts c)
    as (Hr1 & Hsub1 & Hopts1).
  { destruct (failureCounts c !! m0) as [n|] eqn:Hn;
      [|by injection Hb as <- _ _].
    destruct (deliverDeadLetter_body_effect c m0 n w Hr)
      as (c1' & w1' & t1' & Hb' & Hopts & Hself).
    rewrite Hb in Hb'. injection Hb' as <- <- <-.
    split; [by eapply steps_ready; [eapply steps_escalate_one|]|].
    split; [|done].
    destruct Hself as [(_ & _ & ->)|(_ & now & d & a & _ & _ & Hk & Hl)];
      [done|].
    apply map_subseteq_spec. intros k v Hv.
    destruct (decide (k = now)) as [->|Hne].
    - rewrite Hl in Hv. by destruct a.
    - by rewrite (Hk k Hne) in Hv. }
  destruct (IH _ _ _ Hr1 Hrest) as [Hsub2 Hopts2].
  split; [by etrans|congruence].
Qed.

(** The table after an escalation is a part of the table before. *)
Lemma deliverDeadLetter_subseteq c w c' w' t :
  ready c →
  deliverDeadLetter c w = (Some c', w', t) →
  failureCounts c' ⊆ failureCounts c ∧ opts c' = opts c.
Proof.
  intros Hr Hd. unfold deliverDeadLetter in Hd.
  apply bind_inv in Hd as (entries & w1 & t1 & t2 & _ & Hrange & _).
  by eapply deliverDeadLetter_range_subseteq.
Qed.

(** X7.  An escalation never adds an entry and never changes a count,
    whatever the mailbox does: the table it leaves is a part of the
    table it found.  When the mailbox only reads the messages and none
    of the acknowledgments failed, every entry it leaves is below the
    limit. *)
Theorem deliverDeadLetter_only_removes c w c' w' t :
  ready c →
  deliverDeadLetter c w = (Some c', w', t) →
  failureCounts c' ⊆ failureCounts c ∧
  (mailbox_reads_only c →
   (∀ msgID, EAck msgID false ∉ t) →
   ∀ msg n, failureCounts c' !! msg = Some n → n < maxRetryLimit (opts c)).
Proof.
  intros Hr Hd.
  split; [by eapply deliverDeadLetter_subseteq|].
  intros Hro Hack msg n Hn.
  destruct (deliverDeadLetter_subseteq _ _ _ _ _ Hr Hd) as [Hsub _].
  pose proof (lookup_weaken _ _ _ _ Hn Hsub) as Hbefore.
  destruct (deliverDeadLetter_effect c w Hr Hro)
    as (c'' & w'' & t'' & Hd' & Hentries & _).
  rewrite Hd in Hd'. injection Hd' as <- <- <-.
  destruct (Hentries msg n Hbefore) as [_ Hhigh].
  destruct (decide (n < maxRetryLimit (opts c))) as [|Hge]; [done|].
  destruct Hhigh as (pre & d & a & post & -> & Heq); [lia|].
  destruct a; [congruence|]. exfalso. apply (Hack (MsgID msg)).
  apply elem_of_app. right. right. by left.
Qed.

(** X8.  Two escalations in a row, with a mailbox that only reads the
    messages: the second delivers again exactly the messages that the
    first delivered and whose entry is still in the table, those whose
    acknowledgment failed.  A message is delivered at every cycle until
    its acknowledgment succeeds. *)
Theorem deliverDeadLetter_again c w c1 w1 t1 w2 c2 w3 t2 :
  ready c → mailbox_reads_only c →
  deliverDeadLetter c w = (Some c1, w1, t1) →
  deliverDeadLetter c1 w2 = (Some c2, w3, t2) →
  ∀ msg, msg ∈ delivered_of t2 ↔
         msg ∈ delivered_of t1 ∧ is_Some (failureCounts c1 !! msg).
Proof.
  intros Hr Hro Hd1 Hd2 msg.
  destruct (deliverDeadLetter_subseteq _ _ _ _ _ Hr Hd1) as [Hsub Hopts].
  assert (ready c1 ∧ mailbox_reads_only c1) as [Hr1 Hro1].
  { destruct (deliverDeadLetter_steps c w Hr) as (c' & w' & t' & Hd' & Hs).
    rewrite Hd1 in Hd'. injection Hd' as <- <- <-.
    split; [by eapply steps_ready|].
    by apply (same_setup_reads_only c c1 (steps_frame _ _ _ Hs)). }
  destruct (deliverDeadLetter_delivered _ _ _ _ _ Hr Hro Hd1) as (_ & Hin1 & _).
  destruct (deliverDeadLetter_delivered _ _ _ _ _ Hr1 Hro1 Hd2)
    as (_ & Hin2 & _).
  rewrite Hin1, Hin2, Hopts. split.
  - intros (n & Hn & Hge). split; [|by eexists].
    exists n. split; [|done]. by eapply lookup_weaken.
  - intros [(n & Hn & Hge) [n' Hn']]. exists n'. split; [done|].
    pose proof (lookup_weaken _ _ _ _ Hn' Hsub). congruence.
Qed.

End Escalation.

Section Acknowledging.

Context {W : Type} `{!Outside W}.

Implicit Types (c : @Consumer W) (w : W) (msg : MsgEntity).

(** X9.  [XAck] returns nil only when its three arguments are not
    empty, a connection was obtained, and the server answered the XACK
    command with 1 and no error; the connection is then closed.  It
    emits nothing. *)
Theorem XAck_nil_only_on_reply_one (cl : option Client)
  (topic groupID msgID : string) w w' t :
  XAck cl topic groupID msgID w = (Some None, w', t) →
  topic ≠ "" ∧ groupID ≠ "" ∧ msgID ≠ "" ∧ t = [] ∧
  ∃ cl' w1 w2,
    cl = Some cl' ∧
    pool_GetContext (pool cl') w = (None, w1) ∧
    conn_Do_XACK topic groupID msgID w1 = (1, None, w2) ∧
    w' = conn_Close w2.
Proof.
  unfold XAck. case_bool_decide as Hempty; [done|].
  destruct cl as [cl'|]; [|done]. unfold_M.
  destruct (pool_GetContext (pool cl') w) as [[e|] w1] eqn:Hpool; [done|].
  destruct (conn_Do_XACK topic groupID msgID w1) as [[reply [e|]] w2] eqn:Hdo;
    cbn; [done|].
  case_bool_decide as Hreply; [done|].
  intros [= <- <-].
  assert (reply = 1) as -> by (destruct (decide (reply = 1)); tauto).
  repeat split; try tauto. by exists cl', w1, w2.
Qed.

Lemma XAck_empty_id (cl : option Client) (topic groupID : string) w :
  ∃ e, XAck cl topic groupID "" w = (Some (Some e), w, []).
Proof.
  unfold XAck. rewrite bool_decide_true by tauto. by eexists.
Qed.

Lemma steps_no_ack_of_empty_id c h c' :
  steps c h c' → ready c → EAck "" true ∉ h.
Proof.
  induction 1 as [c|c h c1 _ IH|c h c1 m0 w c2 w2 t Hs IH Hb
                   |c h c1 m0 n0 w c2 w2 t Hs IH _ Hb]; intros Hr.
  - apply not_elem_of_nil.
  - by apply IH.
  - intros [Hin|Hin]%elem_of_app; [by apply IH|].
    destruct (handlerMsg_body_cases c1 m0 w (steps_ready _ _ _ Hs Hr))
      as (cb & cl & now & [e|] & w1 & _ & _ & _ & _ & H).
    + rewrite H in Hb. injection Hb as <- <- <-.
      apply elem_of_cons in Hin as [[=]|Hin]. by apply elem_of_nil in Hin.
    + destruct H as (aerr & w2' & Hack & H).
      destruct aerr as [e|]; rewrite H in Hb; injection Hb as <- <- <-;
        apply elem_of_cons in Hin as [[=]|Hin];
        apply elem_of_cons in Hin as [Heq|Hin];
        try (by apply elem_of_nil in Hin); try done.
      injection Heq as Hid. rewrite <- Hid in Hack.
      destruct (XAck_empty_id (Some cl) (topic c1) (groupID c1) w1) as [e He].
      congruence.
  - intros [Hin|Hin]%elem_of_app; [by apply IH|].
    destruct (deliverDeadLetter_body_cases c1 m0 n0 w
                (steps_ready _ _ _ Hs Hr))
      as [[_ H]|[_ (mb & cl & now & derr & w1 & aerr & w2' & w3 & _ & _ & _
                    & _ & Hack & w4 & H)]];
      rewrite H in Hb; injection Hb as <- <- <-.
    + by apply elem_of_nil in Hin.
    + apply elem_of_cons in Hin as [[=]|Hin].
      apply elem_of_cons in Hin as [Heq|Hin]; [|by apply elem_of_nil in Hin].
      injection Heq as Hid Hnil. rewrite <- Hid in Hack.
      destruct (XAck_empty_id (Some cl) (topic c1) (groupID c1) w2') as [e He].
      rewrite He in Hack. injection Hack as <- _. done.
Qed.

(** X10.  A message whose id is empty is never acknowledged with
    success, since [XAck] refuses an empty id before it talks to the
    server: the loop never removes its entry from the failure-count
    table, whatever the schedule, and at or above the limit the message
    is delivered to the mailbox at every escalation. *)
Theorem empty_id_is_never_removed c msg :
  ready c → MsgID msg = "" →
  is_Some (failureCounts c !! msg) →
  (∀ h c', steps c h c' →
           (EAck "" true ∉ h) ∧ is_Some (failureCounts c' !! msg)) ∧
  (∀ schedule w c' w' t,
     run schedule c w = (Some c', w', t) →
     (EAck "" true ∉ t) ∧ is_Some (failureCounts c' !! msg)).
Proof.
  intros Hr Hid Hbefore.
  assert (∀ h c', steps c h c' →
                  (EAck "" true ∉ h) ∧ is_Some (failureCounts c' !! msg))
    as Hsteps.
  { intros h c' Hs.
    pose proof (steps_no_ack_of_empty_id _ _ _ Hs Hr) as Hno.
    split; [done|].
    destruct (failureCounts c' !! msg) as [n|] eqn:Hafter; [by eexists|].
    exfalso. apply Hno.
    destruct (steps_removal _ _ _ msg Hs Hr Hbefore Hafter)
      as (pre & post & handed & [->|(n & d & ->)]); rewrite Hid;
      apply elem_of_app; right; right; by left. }
  split; [done|].
  intros schedule w c' w' t Hrun.
  destruct (run_steps schedule c w Hr) as (c1 & w1 & t1 & Hrun1 & Hs).
  rewrite Hrun in Hrun1. injection Hrun1 as <- <- <-. by apply Hsteps.
Qed.

Lemma failures_of_app msg h t :
  failures_of msg (h ++ t) = (failures_of msg h + failures_of msg t)%nat.
Proof. unfold failures_of. by rewrite List.filter_app, length_app. Qed.

(** X11.  As long as no acknowledgment of the id of a message
    succeeds, the count of the message is the count it had plus the
    number of failures of the callback that left that message since
    then (no counter wrapping around; a callback that only reads leaves
    the message it was handed): counts are kept from one turn of the
    loop to the next, and neither a success of the callback whose
    acknowledgment fails nor an escalation whose acknowledgment fails
    resets them. *)
Theorem count_is_number_of_failures c h c' msg :
  steps c h c' → ready c →
  EAck (MsgID msg) true ∉ h →
  GoInt.min_int ≤ count c msg →
  count c msg + Z.of_nat (failures_of msg h) ≤ GoInt.max_int →
  count c' msg = count c msg + Z.of_nat (failures_of msg h).
Proof.
  induction 1 as [c|c h c1 _ IH|c h c1 m0 w c2 w2 t Hs IH Hb
                   |c h c1 m0 n0 w c2 w2 t Hs IH _ Hb];
    intros Hr Hack Hmin Hmax.
  - cbn. lia.
  - by apply IH.
  - rewrite failures_of_app in *.
    rewrite not_elem_of_app in Hack. destruct Hack as [Hackh Hackt].
    specialize (IH Hr Hackh Hmin ltac:(lia)).
    destruct (handlerMsg_body_effect c1 m0 w (steps_ready _ _ _ Hs Hr))
      as (c2' & w2' & t' & now & Hb' & _ & Hother & Hself).
    rewrite Hb in Hb'. injection Hb' as <- <- <-.
    destruct (decide (msg = now)) as [->|Hne].
    + destruct Hself as [[-> Hl]|(a & -> & Hl)].
      * assert (failures_of now [ECallback m0 now false] = 1%nat) as Hone.
        { unfold failures_of. cbn. by rewrite bool_decide_true. }
        rewrite Hone in *.
        assert (count c2 now = GoInt.incr (count c1 now)) as ->
            by (unfold count at 1; by rewrite Hl).
        rewrite GoInt_incr_small by lia. lia.
      * destruct a.
        { exfalso. apply Hackt. right. by left. }
        assert (failures_of now [ECallback m0 now true; EAck (MsgID now) false]
                = 0%nat) as Hzero by done.
        rewrite Hzero in *.
        assert (count c2 now = count c1 now) as ->
            by (unfold count; by rewrite Hl).
        lia.
    + assert (failures_of msg t = 0%nat) as Hzero.
      { unfold failures_of.
        destruct Hself as [[-> _]|(a & -> & _)]; cbn;
          rewrite ?bool_decide_false by congruence; done. }
      rewrite Hzero in *.
      assert (count c2 msg = count c1 msg) as ->
          by (unfold count; by rewrite (Hother msg Hne)).
      lia.
  - rewrite failures_of_app in *.
    rewrite not_elem_of_app in Hack. destruct Hack as [Hackh Hackt].
    specialize (IH Hr Hackh Hmin ltac:(lia)).
    destruct (deliverDeadLetter_body_effect c1 m0 n0 w
                (steps_ready _ _ _ Hs Hr))
      as (c2' & w2' & t' & Hb' & _ & Hself).
    rewrite Hb in Hb'. injection Hb' as <- <- <-.
    assert (failures_of msg t = 0%nat) as Hzero.
    { unfold failures_of.
      by destruct Hself as [(_ & -> & _)|(_ & now & d & a & -> & _)]. }
    rewrite Hzero in *.
    destruct Hself as [(_ & _ & ->)|(_ & now & d & a & -> & _ & Hother & Hl)];
      [lia|].
    destruct (decide (msg = now)) as [->|Hne].
    + destruct a.
      { exfalso. apply Hackt. right. by left. }
      assert (count c2 now = count c1 now) as ->
          by (unfold count; by rewrite Hl).
      lia.
    + assert (count c2 msg = count c1 msg) as ->
          by (unfold count; by rewrite (Hother msg Hne)).
      lia.
Qed.

End Acknowledging.

(** ** More properties of the configuration *)

Section Configuration.

Context {W : Type} `{!Outside W}.

(** X12.  Whatever the options, the repaired options are fit for the
    loop: the receive timeout and the retry limit are not negative, the
    mailbox is there, the two other timeouts are positive.  Repairing
    again changes nothing. *)
Theorem repairConsumer_postcondition (o : @ConsumerOptions W) :
  let r := repairConsumer o in
  0 ≤ receiveTimeout r ∧ 0 ≤ maxRetryLimit r ∧
  is_Some (deadLetterMailbox r) ∧
  0 < deadLetterDeliverTimeout r ∧ 0 < handleMsgTimeout r ∧
  repairConsumer r = r.
Proof.
  cbn zeta. rewrite !repairConsumer_fields. cbn.
  unfold time.Second.
  split; [case_bool_decide; lia|]. split; [case_bool_decide; lia|].
  split; [by eexists|].
  split; [case_bool_decide; lia|]. split; [case_bool_decide; lia|].
  f_equal.
  - destruct (decide (receiveTimeout o < 0)) as [Hc|Hc];
      [rewrite (bool_decide_true _ Hc)|rewrite (bool_decide_false _ Hc)];
      by rewrite bool_decide_false by lia.
  - destruct (decide (maxRetryLimit o < 0)) as [Hc|Hc];
      [rewrite (bool_decide_true _ Hc)|rewrite (bool_decide_false _ Hc)];
      by rewrite bool_decide_false by lia.
  - destruct (decide (deadLetterDeliverTimeout o ≤ 0)) as [Hc|Hc];
      [rewrite (bool_decide_true _ Hc)|rewrite (bool_decide_false _ Hc)];
      by rewrite bool_decide_false by lia.
  - destruct (decide (handleMsgTimeout o ≤ 0)) as [Hc|Hc];
      [rewrite (bool_decide_true _ Hc)|rewrite (bool_decide_false _ Hc)];
      by rewrite bool_decide_false by lia.
Qed.

Lemma apply_options_app (l1 l2 : list (@ConsumerOption W)) o :
  apply_options (l1 ++ l2) o =
    match apply_options l1 o with
    | Some o1 => apply_options l2 o1
    | None => None
    end.
Proof.
  revert o. induction l1 as [|[f|] l1 IH]; intros o; cbn; [done| |done].
  apply IH.
Qed.

(** X13.  The consumer that [NewConsumer] returns carries the arguments
    it was given, none of them nil or empty, and the options applied in
    order and then repaired.  The option given last wins: after
    [WithMaxRetryLimit limit] in the last place the limit of the
    consumer is [limit], or 3 when [limit] is negative. *)
Theorem NewConsumer_consumer (cl : option Client)
  (tp gid cid : string) (callback : option (@MsgCallback W))
  (options : list (@ConsumerOption W)) c started :
  NewConsumer cl tp gid cid callback options
    = returned (Some c) None started →
  (topic c = tp ∧ tp ≠ "") ∧
  (groupID c = gid ∧ gid ≠ "") ∧
  (consumerID c = cid ∧ cid ≠ "") ∧
  (callbackFunc c = callback ∧ is_Some callback) ∧
  (client c = cl ∧ is_Some cl) ∧
  (∃ o, apply_options options zero_ConsumerOptions = Some o ∧
        opts c = repairConsumer o) ∧
  (∀ before limit,
     options = before ++ [WithMaxRetryLimit limit] →
     maxRetryLimit (opts c) = if bool_decide (limit < 0) then 3 else limit).
Proof.
  unfold NewConsumer. cbn zeta.
  destruct (checkParam _) as [e|] eqn:Hcheck; [done|].
  apply checkParam_nil in Hcheck. cbn in Hcheck.
  destruct Hcheck as (Hcb & Hcl & Ht & Hg & Hc).
  cbn [opts].
  destruct (apply_options options zero_ConsumerOptions) as [o|] eqn:Happly;
    [|done].
  intros [= <- _]. cbn.
  split; [done|]. split; [done|]. split; [done|].
  split; [by destruct callback|]. split; [by destruct cl|].
  split; [by exists o|].
  intros before limit ->.
  rewrite apply_options_app in Happly.
  destruct (apply_options before zero_ConsumerOptions) as [o1|]; [|done].
  cbn in Happly. injection Happly as <-.
  by rewrite repairConsumer_fields.
Qed.

End Configuration.

(** ** Properties of the parsing of replies *)

Section ParsingProperties.

Variable gocast_ToString : reply → string.

Lemma xReadGroup_entries_replies msgs acc :
  (∀ s, gocast_ToString (reply_bytes s) = s) →
  xReadGroup_entries gocast_ToString (entry_reply <$> msgs) acc
  = (acc ++ msgs, None).
Proof.
  intros Hstr. revert acc. induction msgs as [|[id k v] msgs IH]; intros acc.
  { cbn. by rewrite app_nil_r. }
  cbn. rewrite !Hstr, IH. by rewrite <- app_assoc.
Qed.

(** X14.  Reading back what the server sends: when [gocast.ToString]
    gives a bulk string as it is, the reply of the server for a stream
    and a list of messages, each with one field and its value, is parsed
    into that list, in order and without error; for the empty list the
    result is no message and no error, not [ErrNoMsg]. *)
Theorem xReadGroup_parse_stream_reply (tp : string) (msgs : list MsgEntity) :
  (∀ s, gocast_ToString (reply_bytes s) = s) →
  xReadGroup_parse gocast_ToString (stream_reply tp msgs) = (msgs, None).
Proof.
  intros Hstr. unfold xReadGroup_parse, stream_reply. cbn.
  by rewrite xReadGroup_entries_replies.
Qed.

Lemma xReadGroup_entries_error raws acc msgs e :
  xReadGroup_entries gocast_ToString raws acc = (msgs, Some e) →
  msgs = [] ∧ e = invalid_msg_format.
Proof.
  revert acc. induction raws as [|raw raws IH]; intros acc; cbn; [done|].
  destruct (as_array raw) as [|rawID [|rawBody [|]]];
    try (by intros [= <- <-]).
  destruct (as_array rawBody) as [|rawKey [|rawVal [|]]];
    try (by intros [= <- <-]).
  apply IH.
Qed.

(** X15.  [ErrNoMsg] is returned exactly for a reply that is not an
    array with at least one item (nil, as after a timeout, among them).
    The only other error is "invalid msg format", and with an error no
    message is returned. *)
Theorem xReadGroup_parse_errors (rawReply : reply) :
  ((xReadGroup_parse gocast_ToString rawReply).2 = Some ErrNoMsg ↔
   as_array rawReply = []) ∧
  (∀ e, (xReadGroup_parse gocast_ToString rawReply).2 = Some e →
        (xReadGroup_parse gocast_ToString rawReply).1 = [] ∧
        (e = ErrNoMsg ∨ e = invalid_msg_format)).
Proof.
  unfold xReadGroup_parse.
  destruct (as_array rawReply) as [|first rest].
  { split; [done|]. intros e [= <-]. by auto. }
  assert (∀ e,
            (match as_array first with
             | [_; rawMsgs] =>
                 xReadGroup_entries gocast_ToString (as_array rawMsgs) []
             | _ => ([], Some invalid_msg_format)
             end).2 = Some e →
            (match as_array first with
             | [_; rawMsgs] =>
                 xReadGroup_entries gocast_ToString (as_array rawMsgs) []
             | _ => ([], Some invalid_msg_format)
             end).1 = [] ∧ e = invalid_msg_format) as Herr.
  { intros e.
    destruct (as_array first) as [|name [|rawMsgs [|]]];
      try (by intros [= <-]).
    destruct (xReadGroup_entries _ _ _) as [msgs err] eqn:Hentries.
    cbn. intros ->. by apply xReadGroup_entries_error in Hentries. }
  split.
  - split; [|done]. intros He. by destruct (Herr _ He) as [_ [=]].
  - intros e He. destruct (Herr e He) as [? ->]. by auto.
Qed.

Lemma xReadGroup_entries_ok raws acc :
  Forall (λ raw, ∃ rawID rawKey rawVal,
            raw = reply_array [rawID; reply_array [rawKey; rawVal]]) raws →
  ∃ msgs, xReadGroup_entries gocast_ToString raws acc = (acc ++ msgs, None) ∧
          length msgs = length raws.
Proof.
  intros Hall. revert acc.
  induction Hall as [|raw raws (rawID & rawKey & rawVal & ->) _ IH];
    intros acc.
  { exists []. by rewrite app_nil_r. }
  cbn. destruct (IH (acc ++ [mkMsg (gocast_ToString rawID)
                               (gocast_ToString rawKey)
                               (gocast_ToString rawVal)]))
    as (msgs & -> & Hlen).
  eexists (_ :: msgs). rewrite <- app_assoc. split; [done|]. cbn. by rewrite Hlen.
Qed.

Lemma xReadGroup_entries_bad before bad after acc :
  (∀ rawID rawKey rawVal,
     bad ≠ reply_array [rawID; reply_array [rawKey; rawVal]]) →
  xReadGroup_entries gocast_ToString (before ++ bad :: after) acc
  = ([], Some invalid_msg_format).
Proof.
  intros Hbad. revert acc. induction before as [|raw before IH]; intros acc.
  - cbn. destruct bad as [| | | |items|]; try done. cbn.
    destruct items as [|rawID [|rawBody [|]]]; try done.
    destruct rawBody as [| | | |fields|]; try done. cbn.
    destruct fields as [|rawKey [|rawVal [|]]]; try done.
    by destruct (Hbad rawID rawKey rawVal).
  - cbn. destruct (as_array raw) as [|rawID [|rawBody [|]]]; try done.
    destruct (as_array rawBody) as [|rawKey [|rawVal [|]]]; try done.
Qed.

(** X16.  All or nothing: when every entry of the reply is an id and a
    body of exactly one field and its value, as many messages as
    entries are returned; when one entry is not, wherever it is, the
    read fails with "invalid msg format" and returns no message at all.
    So it is for an entry whose body is nil, which is how the server
    lists a pending entry that has been deleted from the stream, and
    for a message published with two fields. *)
Theorem xReadGroup_parse_all_or_nothing (name : reply) (raws : list reply) :
  let rawReply := reply_array [reply_array [name; reply_array raws]] in
  (Forall (λ raw, ∃ rawID rawKey rawVal,
             raw = reply_array [rawID; reply_array [rawKey; rawVal]]) raws →
   ∃ msgs, xReadGroup_parse gocast_ToString rawReply = (msgs, None) ∧
           length msgs = length raws) ∧
  (∀ before bad after,
     raws = before ++ bad :: after →
     (∀ rawID rawKey rawVal,
        bad ≠ reply_array [rawID; reply_array [rawKey; rawVal]]) →
     xReadGroup_parse gocast_ToString rawReply
     = ([], Some invalid_msg_format)) ∧
  (∀ before rawID after,
     raws = before ++ reply_array [rawID; reply_nil] :: after →
     xReadGroup_parse gocast_ToString rawReply
     = ([], Some invalid_msg_format)) ∧
  (∀ before rawID k1 v1 k2 v2 after,
     raws = before ++ reply_array [rawID; reply_array [k1; v1; k2; v2]]
                   :: after →
     xReadGroup_parse gocast_ToString rawReply
     = ([], Some invalid_msg_format)).
Proof.
  cbn zeta. unfold xReadGroup_parse. cbn [as_array].
  split; [|split; [|split]].
  - intros Hall.
    destruct (xReadGroup_entries_ok raws [] Hall) as (msgs & Hparse & Hlen).
    by exists msgs.
  - intros before bad after -> Hbad. by apply xReadGroup_entries_bad.
  - intros before rawID after ->. apply xReadGroup_entries_bad.
    intros ? ? ? [=].
  - intros before rawID k1 v1 k2 v2 after ->. apply xReadGroup_entries_bad.
    intros ? ? ? [=].
Qed.

End ParsingProperties.

(** ** Properties of the producer and of the options of the client *)

Lemma apply_producer_options_app (l1 l2 : list ProducerOption) o :
  apply_producer_options (l1 ++ l2) o =
    match apply_producer_options l1 o with
    | Some o1 => apply_producer_options l2 o1
    | None => None
    end.
Proof.
  revert o. induction l1 as [|[f|] l1 IH]; intros o; cbn; [done| |done].
  apply IH.
Qed.

(** X17.  The queue length of a producer is always at least 1: it is
    500 when no option is given, and after [WithMsgQueueLen len] in the
    last place it is [len], or 500 when [len] is not positive.  The
    client is the one given. *)
Theorem NewProducer_queue_length (cl : option Client)
  (options : list ProducerOption) (p : Producer) :
  NewProducer cl options = Some p →
  producer_client p = cl ∧
  1 ≤ msgQueueLen (producer_opts p) ∧
  (options = [] → msgQueueLen (producer_opts p) = 500) ∧
  (∀ before len,
     options = before ++ [WithMsgQueueLen len] →
     msgQueueLen (producer_opts p)
     = if bool_decide (len ≤ 0) then 500 else len).
Proof.
  unfold NewProducer.
  destruct (apply_producer_options options (mkProducerOptions 0))
    as [o|] eqn:Happly; [|done].
  intros [= <-]. cbn. split; [done|]. split; [|split].
  - unfold repairProducer. case_bool_decide; cbn; lia.
  - intros ->. by injection Happly as <-.
  - intros before len ->. rewrite apply_producer_options_app in Happly.
    destruct (apply_producer_options before _) as [o1|]; [|done].
    cbn in Happly. injection Happly as <-.
    unfold repairProducer. cbn. by case_bool_decide.
Qed.

Section SendingProperties.

Context {W : Type} `{!Outside W}.

Variable conn_Do_XADD :
  string → Z → string → string → W → string * option error * W.

(** X18.  [SendMsg] with an empty topic fails without a word to the
    server, whatever the producer.  Otherwise, for a producer made by
    [NewProducer] with a client: when no connection is obtained that
    error is returned and nothing is sent; when one is, a single XADD
    is sent, for that topic, key and value and with the queue length of
    the producer, at least 1, as MAXLEN; its answer is returned as it
    is and the connection is closed. *)
Theorem SendMsg_sends_one_XADD (cl : Client) (options : list ProducerOption)
  (p : Producer) (tp key val : string) w :
  NewProducer (Some cl) options = Some p →
  (∀ p', ∃ e, SendMsg conn_Do_XADD p' "" key val w
              = (Some ("", Some e), w, [])) ∧
  (tp ≠ "" →
   match pool_GetContext (pool cl) w with
   | (Some e, w1) =>
       SendMsg conn_Do_XADD p tp key val w = (Some ("", Some e), w1, [])
   | (None, w1) =>
       ∃ maxLen,
         maxLen = msgQueueLen (producer_opts p) ∧ 1 ≤ maxLen ∧
         SendMsg conn_Do_XADD p tp key val w =
           (let '(r, w2) := conn_Do_XADD tp maxLen key val w1 in
            (Some r, conn_Close w2, []))
   end).
Proof.
  intros Hnew. split.
  { intros p'. unfold SendMsg, XAddMsg. rewrite bool_decide_true by done.
    by eexists. }
  intros Htp.
  unfold NewProducer in Hnew.
  destruct (apply_producer_options options _) as [o|]; [|done].
  injection Hnew as <-. unfold SendMsg, XAddMsg. cbn.
  rewrite bool_decide_false by done. unfold_M.
  destruct (pool_GetContext (pool cl) w) as [[e|] w1]; [done|].
  exists (msgQueueLen (repairProducer o)). split; [done|]. split.
  - unfold repairProducer. case_bool_decide; cbn; lia.
  - by destruct (conn_Do_XADD _ _ _ _ w1) as [r w2].
Qed.

End SendingProperties.

(** The repaired options of the client, field by field. *)
Lemma repairClient_fields (o : client.ClientOptions) :
  client.repairClient o =
    client.mkClientOptions
      (if bool_decide (client.maxIdle o < 0) then client.DefaultMaxIdle
       else client.maxIdle o)
      (if bool_decide (client.idleTimeoutSeconds o < 0)
       then client.DefaultIdleTimeoutSeconds
       else client.idleTimeoutSeconds o)
      (if bool_decide (client.maxActive o < 0) then client.DefaultMaxActive
       else client.maxActive o)
      (client.wait o) (client.network o) (client.address o)
      (client.password o).
Proof.
  destruct o as [mi its ma wt nw ad pw]. unfold client.repairClient. cbn.
  destruct (bool_decide (mi < 0)); cbn;
    destruct (bool_decide (its < 0)); cbn;
    destruct (bool_decide (ma < 0)); reflexivity.
Qed.

(** X19.  [repairClient] replaces the negative numbers, and only them,
    by the defaults 20, 10 and 100; it leaves the wait mode, the
    network, the address and the password alone; afterwards no number
    is negative, and repairing again changes nothing. *)
Theorem repairClient_postcondition (o : client.ClientOptions) :
  let r := client.repairClient o in
  client.maxIdle r = (if bool_decide (client.maxIdle o < 0) then 20
                      else client.maxIdle o) ∧
  client.idleTimeoutSeconds r
    = (if bool_decide (client.idleTimeoutSeconds o < 0) then 10
       else client.idleTimeoutSeconds o) ∧
  client.maxActive r = (if bool_decide (client.maxActive o < 0) then 100
                        else client.maxActive o) ∧
  (client.wait r = client.wait o ∧ client.network r = client.network o ∧
   client.address r = client.address o ∧
   client.password r = client.password o) ∧
  (0 ≤ client.maxIdle r ∧ 0 ≤ client.idleTimeoutSeconds r ∧
   0 ≤ client.maxActive r) ∧
  client.repairClient r = r.
Proof.
  cbn zeta. rewrite !repairClient_fields. cbn.
  unfold client.DefaultMaxIdle, client.DefaultIdleTimeoutSeconds,
    client.DefaultMaxActive.
  split; [done|]. split; [done|]. split; [done|]. split; [done|].
  split; [repeat split; case_bool_decide; lia|].
  f_equal.
  - destruct (decide (client.maxIdle o < 0)) as [Hc|Hc];
      [rewrite (bool_decide_true _ Hc)|rewrite (bool_decide_false _ Hc)];
      by rewrite bool_decide_false by lia.
  - destruct (decide (client.idleTimeoutSeconds o < 0)) as [Hc|Hc];
      [rewrite (bool_decide_true _ Hc)|rewrite (bool_decide_false _ Hc)];
      by rewrite bool_decide_false by lia.
  - destruct (decide (client.maxActive o < 0)) as [Hc|Hc];
      [rewrite (bool_decide_true _ Hc)|rewrite (bool_decide_false _ Hc)];
      by rewrite bool_decide_false by lia.
Qed.

Lemma client_apply_options_app (l1 l2 : list client.ClientOption) o :
  client.apply_options (l1 ++ l2) o =
    match client.apply_options l1 o with
    | Some o1 => client.apply_options l2 o1
    | None => None
    end.
Proof.
  revert o. induction l1 as [|[f|] l1 IH]; intros o; cbn; [done| |done].
  apply IH.
Qed.

(** X20.  The pool of a client made by [NewClient] is made from the
    options applied in order to the three arguments, and repaired: its
    two limits are the configured ones (20 and 100 for negative ones),
    and are not negative; its wait mode is the configured one; its idle
    timeout is the configured number of seconds (10 for a negative one)
    times one second, a product of 64-bit integers, which is that
    number of seconds in nanoseconds as long as it is at most
    9223372036.  The option given last wins: after
    [WithIdleTimeoutSeconds n] in the last place the idle timeout is
    [n] seconds, or 10 seconds when [n] is negative.  Without options
    the three numbers are 0, not the defaults. *)
Theorem NewClient_pool_numbers (nw ad pw : string)
  (options : list client.ClientOption) (pl : client.Pool) :
  client.NewClient_pool nw ad pw options = Some pl →
  (∃ o,
     client.apply_options options
       (client.mkClientOptions 0 0 0 false nw ad pw) = Some o ∧
     let seconds :=
       if bool_decide (client.idleTimeoutSeconds o < 0) then 10
       else client.idleTimeoutSeconds o in
     client.MaxIdle pl =
       (if bool_decide (client.maxIdle o < 0) then 20 else client.maxIdle o) ∧
     client.MaxActive pl =
       (if bool_decide (client.maxActive o < 0) then 100
        else client.maxActive o) ∧
     client.Wait pl = client.wait o ∧
     client.IdleTimeout pl = GoInt.wrap (seconds * time.Second) ∧
     (seconds ≤ 9223372036 →
      client.IdleTimeout pl = seconds * 1000000000)) ∧
  0 ≤ client.MaxIdle pl ∧ 0 ≤ client.MaxActive pl ∧
  (∀ before n,
     options = before ++ [client.WithIdleTimeoutSeconds n] →
     (0 ≤ n ≤ 9223372036 → client.IdleTimeout pl = n * 1000000000) ∧
     (n < 0 → client.IdleTimeout pl = 10000000000)) ∧
  (options = [] → pl = client.mkPool 0 0 0 false).
Proof.
  unfold client.NewClient_pool.
  destruct (client.apply_options options _) as [o|] eqn:Happly; [|done].
  intros [= <-]. rewrite repairClient_fields. unfold client.getRedisPool. cbn.
  unfold client.DefaultMaxIdle, client.DefaultIdleTimeoutSeconds,
    client.DefaultMaxActive.
  assert (∀ s, 0 ≤ s ≤ 9223372036 →
               GoInt.wrap (s * time.Second) = s * 1000000000) as Hsmall.
  { intros s Hs. rewrite GoInt_wrap_small; [done|].
    unfold GoInt.min_int, GoInt.max_int, time.Second. lia. }
  split; [|split; [|split; [|split]]].
  - exists o. split; [done|]. cbn zeta.
    split; [done|]. split; [done|]. split; [done|]. split; [done|].
    intros Hle. apply Hsmall. case_bool_decide; lia.
  - case_bool_decide; lia.
  - case_bool_decide; lia.
  - intros before n ->. rewrite client_apply_options_app in Happly.
    destruct (client.apply_options before _) as [o1|]; [|done].
    cbn in Happly. injection Happly as <-. cbn. split.
    + intros Hn. rewrite bool_decide_false by lia. by apply Hsmall.
    + intros Hn. rewrite bool_decide_true by lia. by apply Hsmall.
  - intros ->. injection Happly as <-. reflexivity.
Qed.


(** ** The new properties at work in the simulated world *)

Lemma receive_never_returns_ErrNoMsg_witness :
  let c := mkConsumer context_WithCancel (Some callback_ok) the_client
             "" "G" "c1" ∅ (repairConsumer zero_ConsumerOptions) in
  ∃ e, receive c (sim_acking [] []) = (Some ([], Some e), sim_acking [] [], [])
       ∧ e ≠ ErrNoMsg.
Proof.
  intros c. eexists. split; [reflexivity|].
  eapply (receive_never_returns_ErrNoMsg c (sim_acking [] []) []).
  left. reflexivity.
Defined.

Lemma run_iteration_on_read_error_witness :
  receive (sim_consumer callback_ok 3 None) (sim_acking [] [])
  = (Some ([], None), sim_acking [] [], []).
Proof.
  refine (proj1 (run_iteration_on_read_error
                   (sim_consumer callback_ok 3 None) (mkClient 0)
                   (sim_acking [] []) [] ErrNoMsg (sim_acking [] [])
                   (sim_consumer_ready _ _ _) eq_refl _ _ _ eq_refl)
                eq_refl); discriminate.
Defined.

Lemma run_changes_only_the_table_witness :
  ∃ c' w' t,
    run [false; false] (sim_consumer callback_failing 3 None)
      (sim_acking [msg1] [msg1]) = (Some c', w', t) ∧
    ctx c' = context_WithCancel.
Proof.
  destruct (run_steps [false; false] (sim_consumer callback_failing 3 None)
              (sim_acking [msg1] [msg1]) (sim_consumer_ready _ _ _))
    as (c' & w' & t & Hrun & _).
  exists c', w', t. split; [exact Hrun|].
  assert (Forall (λ stop_called, stop_called = false) [false; false]) as Hf
      by (repeat constructor).
  destruct (run_changes_only_the_table _ _ _ _ _ _ Hf Hrun) as [_ Hctx].
  exact Hctx.
Defined.

Lemma handlerMsg_calls_back_each_message_witness :
  ∃ c' w' t,
    handlerMsg (sim_consumer callback_failing 3 None) [msg1; msg2; msg1]
      (sim_acking [] []) = (Some c', w', t) ∧
    callbacks_of t = [msg1; msg2; msg1].
Proof.
  destruct (handlerMsg_steps [msg1; msg2; msg1]
              (sim_consumer callback_failing 3 None) (sim_acking [] [])
              (sim_consumer_ready _ _ _))
    as (c' & w' & t & Hh & _).
  exists c', w', t. split; [exact Hh|].
  exact (handlerMsg_calls_back_each_message _ _ _ _ _ _
           (sim_consumer_ready _ _ _) Hh).
Defined.

Lemma handlerMsg_all_success_witness :
  let c := with_failureCounts (sim_consumer callback_ok 3 None)
             (<[msg1 := 2]> (<[msg2 := 1]> ∅)) in
  callback_reads_only c ∧
  ∃ c' w',
    handlerMsg c [msg1] (sim_acking [] [])
    = (Some c', w', [ECallback msg1 msg1 true; EAck (MsgID msg1) true]) ∧
    failureCounts c' !! msg1 = None ∧ failureCounts c' !! msg2 = Some 1.
Proof.
  intros c.
  assert (ready c) as Hr by apply sim_consumer_ready.
  assert (callback_reads_only c) as Hro by (intros msg w; reflexivity).
  split; [exact Hro|].
  destruct (handlerMsg_steps [msg1] c (sim_acking [] []) Hr)
    as (c' & w' & t & Hh & _).
  assert (t = [ECallback msg1 msg1 true; EAck (MsgID msg1) true]) as ->.
  { vm_compute in Hh. by injection Hh as _ _ <-. }
  exists c', w'. split; [exact Hh|].
  assert (∀ msg,
            failureCounts c' !! msg =
              if bool_decide (msg ∈ [msg1]) then None
              else failureCounts c !! msg) as Hall.
  { apply (handlerMsg_all_success _ _ _ _ _ _ Hr Hro Hh).
    - intros msg now [[=]|Hin]%elem_of_cons.
      apply elem_of_cons in Hin as [[=]|Hin]. by apply elem_of_nil in Hin.
    - intros msgID [[=]|Hin]%elem_of_cons.
      apply elem_of_cons in Hin as [[=]|Hin]. by apply elem_of_nil in Hin. }
  split.
  - rewrite Hall. rewrite bool_decide_true; [done|]. by left.
  - rewrite Hall. rewrite bool_decide_false.
    + vm_compute. reflexivity.
    + intros [[=]|Hin]%elem_of_cons. by apply elem_of_nil in Hin.
Defined.

Lemma deliverDeadLetter_delivers_each_once_witness :
  mailbox_reads_only sim_two_entries ∧
  ∃ c' w' t,
    deliverDeadLetter sim_two_entries (sim_acking [] []) = (Some c', w', t) ∧
    msg1 ∈ delivered_of t ∧ msg2 ∉ delivered_of t.
Proof.
  assert (ready sim_two_entries) as Hr by apply sim_consumer_ready.
  assert (mailbox_reads_only sim_two_entries) as Hro by (by vm_compute).
  split; [exact Hro|].
  destruct (deliverDeadLetter_steps sim_two_entries (sim_acking [] []) Hr)
    as (c' & w' & t & Hd & _).
  exists c', w', t. split; [exact Hd|].
  destruct (deliverDeadLetter_delivers_each_once _ _ _ _ _ Hr Hro Hd)
    as (_ & Hin & _).
  split.
  - apply Hin. exists 2. split; vm_compute; [reflexivity|discriminate].
  - intros (n & Hn & Hge)%Hin. vm_compute in Hn. injection Hn as <-.
    vm_compute in Hge. by apply Hge.
Defined.

Lemma deliverDeadLetter_only_removes_witness :
  mailbox_reads_only sim_two_entries ∧
  ∃ c' w' t,
    deliverDeadLetter sim_two_entries (sim_acking [] []) = (Some c', w', t) ∧
    failureCounts c' ⊆ failureCounts sim_two_entries ∧
    ∀ msg n, failureCounts c' !! msg = Some n → n < 2.
Proof.
  assert (ready sim_two_entries) as Hr by apply sim_consumer_ready.
  assert (mailbox_reads_only sim_two_entries) as Hro by (by vm_compute).
  split; [exact Hro|].
  destruct (deliverDeadLetter_steps sim_two_entries (sim_acking [] []) Hr)
    as (c' & w' & t & Hd & _).
  exists c', w', t. split; [exact Hd|].
  destruct (deliverDeadLetter_only_removes _ _ _ _ _ Hr Hd) as [Hsub Hlow].
  split; [exact Hsub|].
  apply (Hlow Hro).
  assert (t = [EDeliver msg1 2 msg1 true; EAck (MsgID msg1) true]) as ->.
  { vm_compute in Hd. by injection Hd as _ _ <-. }
  intros msgID [[=]|Hin]%elem_of_cons.
  apply elem_of_cons in Hin as [[=]|Hin]. by apply elem_of_nil in Hin.
Defined.

Lemma deliverDeadLetter_again_witness :
  mailbox_reads_only sim_two_entries ∧
  ∃ c1 w1 t1 c2 w3 t2,
    deliverDeadLetter sim_two_entries (sim_replying 0) = (Some c1, w1, t1) ∧
    deliverDeadLetter c1 w1 = (Some c2, w3, t2) ∧
    msg1 ∈ delivered_of t2.
Proof.
  assert (ready sim_two_entries) as Hr by apply sim_consumer_ready.
  assert (mailbox_reads_only sim_two_entries) as Hro by (by vm_compute).
  split; [exact Hro|].
  destruct (deliverDeadLetter_steps sim_two_entries (sim_replying 0) Hr)
    as (c1 & w1 & t1 & Hd1 & Hs1).
  destruct (deliverDeadLetter_steps c1 w1 (steps_ready _ _ _ Hs1 Hr))
    as (c2 & w3 & t2 & Hd2 & _).
  exists c1, w1, t1, c2, w3, t2. split; [exact Hd1|]. split; [exact Hd2|].
  apply (deliverDeadLetter_again _ _ _ _ _ _ _ _ _ Hr Hro Hd1 Hd2).
  vm_compute in Hd1. injection Hd1 as <- _ <-.
  split; [by left|]. vm_compute. by eexists.
Defined.

Lemma XAck_nil_only_on_reply_one_witness :
  ∃ w1 w2,
    pool_GetContext 0 (sim_replying 1) = (None, w1) ∧
    conn_Do_XACK "T" "G" (MsgID msg1) w1 = (1, None, w2).
Proof.
  assert (XAck the_client "T" "G" (MsgID msg1) (sim_replying 1)
          = (Some None, sim_replying 1, [])) as Hx
      by (vm_compute; reflexivity).
  destruct (XAck_nil_only_on_reply_one _ _ _ _ _ _ _ Hx)
    as (_ & _ & _ & _ & cl' & w1 & w2 & Hcl & Hpool & Hdo & _).
  injection Hcl as <-. by exists w1, w2.
Defined.

Lemma empty_id_is_never_removed_witness :
  let nameless := mkMsg "" "k" "v" in
  let c := with_failureCounts (sim_consumer callback_failing 1 None)
             (<[nameless := 1]> ∅) in
  ∃ c' w' t,
    run [false; false] c (sim_acking [] [nameless]) = (Some c', w', t) ∧
    is_Some (failureCounts c' !! nameless).
Proof.
  intros nameless c.
  assert (ready c) as Hr by apply sim_consumer_ready.
  destruct (run_steps [false; false] c (sim_acking [] [nameless]) Hr)
    as (c' & w' & t & Hrun & _).
  exists c', w', t. split; [exact Hrun|].
  destruct (empty_id_is_never_removed c nameless Hr eq_refl) as [_ Hloop].
  - vm_compute. by eexists.
  - by destruct (Hloop _ _ _ _ _ Hrun).
Defined.

Lemma count_is_number_of_failures_witness :
  ∃ c' w' t,
    handlerMsg (sim_consumer callback_failing 3 None) [msg1; msg2; msg1]
      (sim_acking [] []) = (Some c', w', t) ∧
    count c' msg1 = 2.
Proof.
  destruct (handlerMsg_steps [msg1; msg2; msg1]
              (sim_consumer callback_failing 3 None) (sim_acking [] [])
              (sim_consumer_ready _ _ _))
    as (c' & w' & t & Hh & Hs).
  exists c', w', t. split; [exact Hh|].
  assert (t = [ECallback msg1 msg1 false; ECallback msg2 msg2 false;
               ECallback msg1 msg1 false]) as Ht.
  { vm_compute in Hh. by injection Hh as _ _ <-. }
  rewrite (count_is_number_of_failures _ _ _ msg1 Hs
             (sim_consumer_ready _ _ _)).
  - rewrite Ht. vm_compute. reflexivity.
  - rewrite Ht. intros [[=]|Hin]%elem_of_cons.
    apply elem_of_cons in Hin as [[=]|Hin].
    apply elem_of_cons in Hin as [[=]|Hin]. by apply elem_of_nil in Hin.
  - vm_compute. discriminate.
  - rewrite Ht. vm_compute. discriminate.
Defined.

Lemma NewConsumer_consumer_witness :
  topic (sim_consumer callback_ok 5 None) = "T" ∧
  maxRetryLimit (opts (sim_consumer callback_ok 5 None)) = 5.
Proof.
  destruct (NewConsumer_consumer the_client "T" "G" "c1" (Some callback_ok)
              [WithDeadLetterMailbox None; WithMaxRetryLimit 5]
              (sim_consumer callback_ok 5 None)
              [go_run (sim_consumer callback_ok 5 None)] eq_refl)
    as ([Ht _] & _ & _ & _ & _ & _ & Hlast).
  split; [exact Ht|].
  exact (Hlast [WithDeadLetterMailbox None] 5 eq_refl).
Defined.

Lemma xReadGroup_parse_stream_reply_witness :
  xReadGroup_parse sim_ToString (stream_reply "T" [msg1; msg2])
  = ([msg1; msg2], None).
Proof.
  apply (xReadGroup_parse_stream_reply sim_ToString "T" [msg1; msg2]).
  reflexivity.
Defined.

Lemma xReadGroup_parse_errors_witness :
  (xReadGroup_parse sim_ToString reply_nil).2 = Some ErrNoMsg.
Proof.
  apply (xReadGroup_parse_errors sim_ToString reply_nil). reflexivity.
Defined.

Lemma xReadGroup_parse_all_or_nothing_witness :
  xReadGroup_parse sim_ToString
    (reply_array
       [reply_array
          [reply_bytes "T";
           reply_array [entry_reply msg1;
                        reply_array [reply_bytes (MsgID msg2); reply_nil]]]])
  = ([], Some invalid_msg_format).
Proof.
  destruct (xReadGroup_parse_all_or_nothing sim_ToString (reply_bytes "T")
              [entry_reply msg1;
               reply_array [reply_bytes (MsgID msg2); reply_nil]])
    as (_ & _ & Hnil & _).
  exact (Hnil [entry_reply msg1] (reply_bytes (MsgID msg2)) [] eq_refl).
Defined.

Lemma NewProducer_queue_length_witness :
  ∃ p, NewProducer the_client [WithMsgQueueLen 20] = Some p ∧
       msgQueueLen (producer_opts p) = 20.
Proof.
  eexists. split; [reflexivity|].
  destruct (NewProducer_queue_length the_client [WithMsgQueueLen 20] _ eq_refl)
    as (_ & _ & _ & Hlast).
  exact (Hlast [] 20 eq_refl).
Defined.

Lemma SendMsg_sends_one_XADD_witness :
  ∃ p, NewProducer the_client [WithMsgQueueLen 20] = Some p ∧
       SendMsg sim_XADD p "T" "k1" "v1" (sim_acking [] [])
       = (Some (MsgID msg1, None), sim_acking [] [], []).
Proof.
  eexists. split; [reflexivity|].
  destruct (SendMsg_sends_one_XADD sim_XADD (mkClient 0) [WithMsgQueueLen 20]
              _ "T" "k1" "v1" (sim_acking [] []) eq_refl) as [_ Hsend].
  destruct (Hsend ltac:(discriminate)) as (maxLen & _ & _ & Heq).
  exact Heq.
Defined.

Lemma NewClient_pool_numbers_witness :
  (∃ pl,
     client.NewClient_pool "tcp" "127.0.0.1:6379" ""
       [client.WithMaxIdle 7; client.WithIdleTimeoutSeconds 30]
     = Some pl ∧
     client.MaxIdle pl = 7 ∧ client.MaxActive pl = 0 ∧
     client.IdleTimeout pl = 30 * 1000000000) ∧
  (∃ pl,
     client.NewClient_pool "tcp" "127.0.0.1:6379" ""
       [client.WithIdleTimeoutSeconds (-1)]
     = Some pl ∧
     client.IdleTimeout pl = 10000000000).
Proof.
  split; eexists; (split; [reflexivity|]).
  - destruct (NewClient_pool_numbers "tcp" "127.0.0.1:6379" ""
                [client.WithMaxIdle 7; client.WithIdleTimeoutSeconds 30]
                _ eq_refl) as ((o & Ho & H1 & H2 & _) & _ & _ & Hlast & _).
    injection Ho as <-.
    split; [exact H1|]. split; [exact H2|].
    apply (Hlast [client.WithMaxIdle 7] 30 eq_refl). lia.
  - destruct (NewClient_pool_numbers "tcp" "127.0.0.1:6379" ""
                [client.WithIdleTimeoutSeconds (-1)]
                _ eq_refl) as (_ & _ & _ & Hlast & _).
    apply (Hlast [] (-1) eq_refl). lia.
Defined.
